(** * Leaderboard server: review workflow, access gate and query surface

    A shallow embedding of the Express/Mongoose server of the leaderboard
    application (the [auth] middleware and the route handlers registered on
    [app]) together with the [Player] schema, followed by the properties of
    the promotion workflow, the access-control gate and the query surface.

    Modelling conventions.
    - A Mongo collection is the list of its documents in insertion (natural)
      order; [findOne]/[findById...] return the first matching document.
    - [ObjectId]s are natural numbers handed out by a counter kept in the
      store.  A path parameter [:id] is always a well-formed ObjectId.
    - The [Number] fields [totalWin] are integers ([Z]).
    - The storage layer is always reachable: the only exceptions are the
      ones the code or Mongoose validation raise themselves.
    - Wall-clock readings ([Date.now], the start of the current week and
      month) and the JWT verifier are supplied by the environment [Env].
    - Request bodies are typed as the client's interfaces type them: a
      field is a string or a number, or it is absent.
    - [POST /api/auth/login] issues the tokens the verifier accepts and
      does not touch the store; it is left out. *)

From Stdlib Require Import ZArith String Ascii List Lia Bool.
From stdpp Require Import base tactics option numbers list sorting strings.
Import ListNotations.

Local Open Scope Z_scope.
Local Open Scope string_scope.

(** ** Data model *)

Abbreviation ObjectId := nat.

(** [server/models/Player.ts]: the documents of the [Player] collection. *)
Module Player.
Record t := mk {
  _id : ObjectId;
  name : string;
  totalWin : Z;
  avatar : string;
  createdAt : Z
}.

Definition set_totalWin (w : Z) (p : t) : t :=
  mk (_id p) (name p) w (avatar p) (createdAt p).
End Player.

(** The documents of the [Application] collection. *)
Module Application.
(** Modelled from the spec: the [Application] schema.  The server imports
    [./models/Application], whose file is not part of the sources.  The
    fields are those of the spec's data model and of the client's
    [Application] interface; [status] is one of the strings ["pending"],
    ["approved"] and ["rejected"] and defaults to ["pending"], [createdAt]
    defaults to the creation time.  The spec names no validation beyond the
    presence of the required fields, which the submission handler checks
    itself. *)
Record t := mk {
  _id : ObjectId;
  name : string;
  email : string;
  phoneNumber : string;
  nickname : string;
  accountName : string;
  totalWin : Z;
  proofUrl : string;
  status : string;
  createdAt : Z
}.

Definition set_status (s : string) (a : t) : t :=
  mk (_id a) (name a) (email a) (phoneNumber a) (nickname a)
     (accountName a) (totalWin a) (proofUrl a) s (createdAt a).
End Application.

(** The persisted state: the two collections, and the ObjectId counter. *)
Record Store := mkStore {
  players : list Player.t;
  applications : list Application.t;
  nextId : ObjectId
}.

Definition empty_store : Store := mkStore [] [] 0%nat.

Definition set_players (ps : list Player.t) (st : Store) : Store :=
  mkStore ps (applications st) (nextId st).

Definition set_applications (apps : list Application.t) (st : Store) : Store :=
  mkStore (players st) apps (nextId st).

(** What the process reads from outside the store. *)
Record Env := mkEnv {
  jwt_verify : string -> option string; (* [jwt.verify]: the decoded username *)
  now : Z;                              (* [Date.now()] *)
  startOfWeek : Z;                      (* midnight of the last Sunday *)
  startOfMonth : Z                      (* midnight of the 1st of the month *)
}.

(** ** Requests and responses *)

Record ApplicationSubmission := mkSubmission {
  sub_name : option string;
  sub_email : option string;
  sub_phoneNumber : option string;
  sub_nickname : option string;
  sub_accountName : option string;
  sub_totalWin : option Z;
  sub_proofUrl : option string
}.

Inductive Route :=
| POST_applications (body : ApplicationSubmission)
| GET_applications
| PATCH_applications_id (id : ObjectId) (status : option string)
| POST_players (name : option string) (totalWin : option Z)
| PATCH_players_id (id : ObjectId) (totalWin : option Z)
| DELETE_players_id (id : ObjectId)
| GET_players
| GET_players_weekly
| GET_players_monthly
| GET_players_top (limit : option N)
| GET_players_search (q : string)
| POST_test_create_sample_players.

Record Request := mkRequest {
  authorization : option string;  (* the [Authorization] header *)
  route : Route
}.

Inductive Json :=
| JMessage (message : string)
| JPlayer (p : Player.t)
| JPlayers (ps : list Player.t)
| JApplication (a : Application.t)
| JApplications (apps : list Application.t)
| JNone.

Record Response := mkResponse {
  statusCode : nat;
  body : Json
}.

(** ** A state-and-exception monad for the handlers

    Every [await] on the store is a step of this monad.  A thrown exception
    keeps the writes made before it: there is no transaction.  [Outside]
    marks a request the model does not cover (see [regex_compile]). *)

Inductive Error := AuthError | ValidationError | MongoError.

Inductive Result (A : Type) :=
| Ok (a : A) (st : Store)
| Throw (e : Error) (st : Store)
| Outside.
Arguments Ok {A} a st.
Arguments Throw {A} e st.
Arguments Outside {A}.

Definition M (A : Type) := Store -> Result A.

Definition ret {A} (a : A) : M A := fun st => Ok a st.

Definition bind {A B} (m : M A) (k : A -> M B) : M B :=
  fun st =>
    match m st with
    | Ok a st' => k a st'
    | Throw e st' => Throw e st'
    | Outside => Outside
    end.

Definition throw {A} (e : Error) : M A := fun st => Throw e st.

Definition try_catch {A} (m : M A) (handler : Error -> M A) : M A :=
  fun st =>
    match m st with
    | Throw e st' => handler e st'
    | r => r
    end.

Definition get : M Store := fun st => Ok st st.
Definition put (st : Store) : M unit := fun _ => Ok tt st.

Declare Scope handler_scope.
Delimit Scope handler_scope with handler.
Notation "x <- m ;; k" := (bind m (fun x => k))
  (at level 100, m at next level, right associativity) : handler_scope.
Notation "m ;;; k" := (bind m (fun _ => k))
  (at level 100, right associativity) : handler_scope.
Local Open Scope handler_scope.

Definition json (code : nat) (b : Json) : M Response := ret (mkResponse code b).

(** ** JavaScript and Mongo helpers *)

(** Truthiness of an optional string or number: [!x] is [negb (truthy x)]. *)
Definition truthy_string (x : option string) : bool :=
  match x with
  | Some s => negb (s =? "")
  | None => false
  end.

Definition truthy_number (x : option Z) : bool :=
  match x with
  | Some z => negb (z =? 0)%Z
  | None => false
  end.

(** [array.includes(x)] for an array of strings and a possibly absent [x]. *)
Definition includes (l : list string) (x : option string) : bool :=
  match x with
  | Some s => existsb (String.eqb s) l
  | None => false
  end.

(** [s.replace(pat, '')] with a string pattern: the first occurrence only. *)
Fixpoint remove_first (pat s : string) : string :=
  if String.prefix pat s
  then substring (String.length pat) (String.length s - String.length pat) s
  else match s with
       | EmptyString => EmptyString
       | String c s' => String c (remove_first pat s')
       end.

(** The template literal of the default avatar (schema default, and written
    out again in the approval and sample-data handlers). *)
Definition defaultAvatar (name : string) : string :=
  "https://api.dicebear.com/6.x/personas/svg?seed=" ++ name.

(** [.sort({ totalWin: -1 })].  Mongo fixes no order among equal keys; the
    model uses a merge sort. *)
Definition by_totalWin_desc (p q : Player.t) : Prop :=
  (Player.totalWin q <= Player.totalWin p)%Z.

#[global] Instance by_totalWin_desc_dec : RelDecision by_totalWin_desc.
Proof. intros p q. unfold by_totalWin_desc. apply _. Defined.

Definition sort_totalWin_desc : list Player.t -> list Player.t :=
  merge_sort by_totalWin_desc.

(** [.sort({ createdAt: -1 })] on applications. *)
Definition by_createdAt_desc (a b : Application.t) : Prop :=
  (Application.createdAt b <= Application.createdAt a)%Z.

#[global] Instance by_createdAt_desc_dec : RelDecision by_createdAt_desc.
Proof. intros a b. unfold by_createdAt_desc. apply _. Defined.

Definition sort_createdAt_desc : list Application.t -> list Application.t :=
  merge_sort by_createdAt_desc.

(** *** The [$regex] operator, on a fragment of the pattern language

    Strings are sequences of 8-bit characters.  The model covers patterns
    made of ordinary characters (codes 1..127, not a metacharacter), which
    match themselves up to ASCII case under option ['i'], and of ['.'],
    which matches any character but a line feed.  A pattern with an opening
    parenthesis and no [')'], ['\'] or ['['] anywhere cannot be compiled: the
    server reports an error.  Every other pattern is outside the model. *)

Definition is_metachar (c : ascii) : bool :=
  existsb (Ascii.eqb c) (list_ascii_of_string "\^$.[]|()?*+{}").

Definition is_ordinary (c : ascii) : bool :=
  let n := nat_of_ascii c in
  Nat.leb 1 n && Nat.leb n 127 && negb (is_metachar c).

Definition to_lower (c : ascii) : ascii :=
  let n := nat_of_ascii c in
  if Nat.leb 65 n && Nat.leb n 90 then ascii_of_nat (n + 32) else c.

Inductive RxAtom := RxChar (c : ascii) | RxAny.

Inductive RxCompiled :=
| RxOk (r : list RxAtom)
| RxInvalid
| RxUnmodelled.

Definition rx_atom_of (c : ascii) : RxAtom :=
  if Ascii.eqb c "."%char then RxAny else RxChar c.

Definition has_char (c : ascii) (q : list ascii) : bool :=
  existsb (Ascii.eqb c) q.

Definition regex_compile (q : string) : RxCompiled :=
  let cs := list_ascii_of_string q in
  if forallb (fun c => is_ordinary c || Ascii.eqb c "."%char) cs
  then RxOk (map rx_atom_of cs)
  else if has_char "("%char cs
          && negb (has_char ")"%char cs)
          && negb (has_char "\"%char cs)
          && negb (has_char "["%char cs)
  then RxInvalid
  else RxUnmodelled.

Definition rx_atom_match (a : RxAtom) (c : ascii) : bool :=
  match a with
  | RxChar x => Ascii.eqb (to_lower x) (to_lower c)
  | RxAny => negb (Ascii.eqb c "010"%char)
  end.

(** The pattern matches at the start of the subject. *)
Fixpoint rx_match_here (r : list RxAtom) (s : list ascii) : bool :=
  match r, s with
  | [], _ => true
  | a :: r', c :: s' => rx_atom_match a c && rx_match_here r' s'
  | _ :: _, [] => false
  end.

(** An unanchored pattern matches when it matches at some offset. *)
Fixpoint rx_search (r : list RxAtom) (s : list ascii) : bool :=
  rx_match_here r s ||
  match s with
  | [] => false
  | _ :: s' => rx_search r s'
  end.

Definition regex_test (r : list RxAtom) (s : string) : bool :=
  rx_search r (list_ascii_of_string s).

(** ** Collection operations *)

Definition new_ObjectId : M ObjectId :=
  fun st => Ok (nextId st) (mkStore (players st) (applications st) (S (nextId st))).

(** [new Player({ name, totalWin, avatar })] followed by [save()]: the schema
    requires a non-empty [name] and a [totalWin]; [avatar] and [createdAt]
    take their defaults. *)
Definition Player_create (env : Env) (name : option string)
    (totalWin : option Z) (avatar : option string) : M Player.t :=
  match name, totalWin with
  | Some n, Some w =>
      if n =? "" then throw ValidationError
      else
        id <- new_ObjectId ;;
        let p := Player.mk id n w (default (defaultAvatar n) avatar) (now env) in
        st <- get ;;
        put (set_players (players st ++ [p]) st) ;;;
        ret p
  | _, _ => throw ValidationError
  end.

(** [Player.findOne({ name })]: the first document with that name, and its
    position in the collection. *)
Definition Player_findOne_name (n : string) : M (option (nat * Player.t)) :=
  fun st => Ok (list_find (fun p => Player.name p = n) (players st)) st.

(** [doc.save()] on a document read from position [i]: the document keeps
    its [_id], so the write lands where it was read. *)
Definition Player_save (i : nat) (p : Player.t) : M unit :=
  fun st => Ok tt (set_players (<[i := p]> (players st)) st).

(** [Player.findByIdAndUpdate(id, { totalWin }, { new: true })]; an
    [undefined] value is dropped from the update. *)
Definition Player_findByIdAndUpdate (id : ObjectId) (totalWin : option Z)
    : M (option Player.t) :=
  fun st =>
    match list_find (fun p => Player._id p = id) (players st) with
    | Some (i, p) =>
        match totalWin with
        | Some w =>
            let p' := Player.set_totalWin w p in
            Ok (Some p') (set_players (<[i := p']> (players st)) st)
        | None => Ok (Some p) st
        end
    | None => Ok None st
    end.

Definition Player_findByIdAndDelete (id : ObjectId) : M (option Player.t) :=
  fun st =>
    match list_find (fun p => Player._id p = id) (players st) with
    | Some (i, p) => Ok (Some p) (set_players (delete i (players st)) st)
    | None => Ok None st
    end.

Definition Player_deleteMany : M unit :=
  fun st => Ok tt (set_players [] st).

(** [Player.find(filter).sort({ totalWin: -1 })]. *)
Definition Player_find_sorted (filter : Player.t -> bool) : M (list Player.t) :=
  fun st => Ok (sort_totalWin_desc (List.filter filter (players st))) st.

(** [Player.find({ name: { $regex: q, $options: 'i' } }).sort(...)]. *)
Definition Player_find_regex (q : string) : M (list Player.t) :=
  match regex_compile q with
  | RxOk r => Player_find_sorted (fun p => regex_test r (Player.name p))
  | RxInvalid => throw MongoError
  | RxUnmodelled => fun _ => Outside
  end.

(** [new Application({...})] followed by [save()].  With the schema as
    modelled in [Application.t], a document built from a submission that
    passed the handler's guard is always saved. *)
Definition Application_create (env : Env)
    (name email phoneNumber nickname accountName : string) (totalWin : Z)
    (proofUrl : string) : M Application.t :=
  id <- new_ObjectId ;;
  let a := Application.mk id name email phoneNumber nickname accountName
             totalWin proofUrl "pending" (now env) in
  st <- get ;;
  put (set_applications (applications st ++ [a]) st) ;;;
  ret a.

(** [Application.findByIdAndUpdate(id, { status }, { new: true })]. *)
Definition Application_findByIdAndUpdate (id : ObjectId) (status : string)
    : M (option Application.t) :=
  fun st =>
    match list_find (fun a => Application._id a = id) (applications st) with
    | Some (i, a) =>
        let a' := Application.set_status status a in
        Ok (Some a') (set_applications (<[i := a']> (applications st)) st)
    | None => Ok None st
    end.

Definition Application_find_sorted : M (list Application.t) :=
  fun st => Ok (sort_createdAt_desc (applications st)) st.

(** ** The access-control gate *)

(** [req.header('Authorization')?.replace('Bearer ', '')]. *)
Definition bearer_token (authorization : option string) : option string :=
  remove_first "Bearer " <$> authorization.

(** The principal of a request: the username [jwt.verify] decodes from a
    non-empty token. *)
Definition authenticated (env : Env) (authorization : option string)
    : option string :=
  if truthy_string (bearer_token authorization)
  then bearer_token authorization ≫= jwt_verify env
  else None.

(** The [auth] middleware: a missing or empty token and a token that
    [jwt.verify] refuses both end in the [catch] branch; otherwise the next
    handler runs.  (Every route handler answers its own exceptions, so none
    comes back from [next] to this [catch].) *)
Definition auth (env : Env) (req : Request) (next : M Response) : M Response :=
  try_catch
    (let token := bearer_token (authorization req) in
     if negb (truthy_string token) then throw AuthError
     else
       match token ≫= jwt_verify env with
       | Some decoded => next
       | None => throw AuthError
       end)
    (fun _ => json 401 (JMessage "Authentication required")).

(** ** Route handlers *)

(** [app.post('/api/applications')]. *)
Definition post_applications (env : Env) (b : ApplicationSubmission) : M Response :=
  try_catch
    (if negb (truthy_string (sub_name b)) || negb (truthy_string (sub_email b))
        || negb (truthy_string (sub_phoneNumber b))
        || negb (truthy_string (sub_nickname b))
        || negb (truthy_string (sub_accountName b))
        || negb (truthy_number (sub_totalWin b))
     then json 400 (JMessage "Required fields are missing")
     else
       application <- Application_create env
         (default "" (sub_name b)) (default "" (sub_email b))
         (default "" (sub_phoneNumber b)) (default "" (sub_nickname b))
         (default "" (sub_accountName b)) (default 0%Z (sub_totalWin b))
         (default "" (sub_proofUrl b)) ;;
       json 201 (JApplication application))
    (fun _ => json 400 (JMessage "Error submitting application")).

(** [app.get('/api/applications', auth, ...)]. *)
Definition get_applications : M Response :=
  try_catch
    (applications <- Application_find_sorted ;;
     json 200 (JApplications applications))
    (fun _ => json 500 (JMessage "Error fetching applications")).

(** The merge of an approved application into the [Player] collection. *)
Definition merge_player (env : Env) (application : Application.t) : M unit :=
  existingPlayer <- Player_findOne_name (Application.nickname application) ;;
  match existingPlayer with
  | Some (i, existingPlayer) =>
      if (Application.totalWin application >? Player.totalWin existingPlayer)%Z
      then Player_save i
             (Player.set_totalWin (Application.totalWin application) existingPlayer)
      else ret tt
  | None =>
      Player_create env
        (Some (Application.nickname application))
        (Some (Application.totalWin application))
        (Some (defaultAvatar (Application.nickname application))) ;;;
      ret tt
  end.

(** [app.patch('/api/applications/:id', auth, ...)]. *)
Definition patch_applications_id (env : Env) (id : ObjectId)
    (status : option string) : M Response :=
  try_catch
    (if negb (includes ["pending"; "approved"; "rejected"] status)
     then json 400 (JMessage "Invalid status")
     else
       let status := default "" status in
       application <- Application_findByIdAndUpdate id status ;;
       match application with
       | None => json 404 (JMessage "Application not found")
       | Some application =>
           (if status =? "approved" then merge_player env application else ret tt) ;;;
           json 200 (JApplication application)
       end)
    (fun _ => json 400 (JMessage "Error updating application")).

(** [app.post('/api/players', auth, ...)]. *)
Definition post_players (env : Env) (name : option string)
    (totalWin : option Z) : M Response :=
  try_catch
    (player <- Player_create env name totalWin None ;;
     json 201 (JPlayer player))
    (fun _ => json 400 (JMessage "Error creating player")).

(** [app.patch('/api/players/:id', auth, ...)]. *)
Definition patch_players_id (id : ObjectId) (totalWin : option Z) : M Response :=
  try_catch
    (player <- Player_findByIdAndUpdate id totalWin ;;
     match player with
     | None => json 404 (JMessage "Player not found")
     | Some player => json 200 (JPlayer player)
     end)
    (fun _ => json 400 (JMessage "Error updating player")).

(** [app.delete('/api/players/:id', auth, ...)]. *)
Definition delete_players_id (id : ObjectId) : M Response :=
  try_catch
    (player <- Player_findByIdAndDelete id ;;
     match player with
     | None => json 404 (JMessage "Player not found")
     | Some _ => ret (mkResponse 204 JNone)
     end)
    (fun _ => json 400 (JMessage "Error deleting player")).

(** [app.get('/api/players')]. *)
Definition get_players : M Response :=
  try_catch
    (players <- Player_find_sorted (fun _ => true) ;;
     json 200 (JPlayers players))
    (fun _ => json 500 (JMessage "Error fetching players")).

(** [app.get('/api/players/weekly')]. *)
Definition get_players_weekly (env : Env) : M Response :=
  try_catch
    (players <- Player_find_sorted
                  (fun p => (startOfWeek env <=? Player.createdAt p)%Z) ;;
     json 200 (JPlayers players))
    (fun _ => json 500 (JMessage "Error fetching weekly players")).

(** [app.get('/api/players/monthly')]. *)
Definition get_players_monthly (env : Env) : M Response :=
  try_catch
    (players <- Player_find_sorted
                  (fun p => (startOfMonth env <=? Player.createdAt p)%Z) ;;
     json 200 (JPlayers players))
    (fun _ => json 500 (JMessage "Error fetching monthly players")).

(** [app.get('/api/players/top')]: [Number(req.query.limit) || 10]. *)
Definition get_players_top (limit : option N) : M Response :=
  try_catch
    (let limit := match limit with
                  | Some n => if (n =? 0)%N then 10%N else n
                  | None => 10%N
                  end in
     players <- Player_find_sorted (fun _ => true) ;;
     json 200 (JPlayers (take (N.to_nat limit) players)))
    (fun _ => json 500 (JMessage "Error fetching top players")).

(** [app.get('/api/players/search')]. *)
Definition get_players_search (q : string) : M Response :=
  try_catch
    (players <- Player_find_regex q ;;
     json 200 (JPlayers players))
    (fun _ => json 500 (JMessage "Error searching players")).

Definition samplePlayers : list (string * Z) :=
  [ ("Champion123", 50000000%Z);
    ("LuckyWinner", 35000000%Z);
    ("GoldHunter", 25000000%Z);
    ("FortuneMaster", 20000000%Z);
    ("LuckyDragon", 15000000%Z) ].

(** [for (const x of xs) { await body(x) }]. *)
Fixpoint for_of {A} (xs : list A) (body : A -> M unit) : M unit :=
  match xs with
  | [] => ret tt
  | x :: xs' => body x ;;; for_of xs' body
  end.

(** [app.post('/api/test/create-sample-players')]. *)
Definition post_test_create_sample_players (env : Env) : M Response :=
  try_catch
    (Player_deleteMany ;;;
     for_of samplePlayers (fun playerData =>
       Player_create env (Some (fst playerData)) (Some (snd playerData))
         (Some (defaultAvatar (fst playerData))) ;;;
       ret tt) ;;;
     json 201 (JMessage "Sample players created"))
    (fun _ => json 500 (JMessage "Error creating sample players")).

(** The application: each route with the middleware it is registered with. *)
Definition handle (env : Env) (req : Request) : M Response :=
  match route req with
  | POST_applications b => post_applications env b
  | GET_applications => auth env req get_applications
  | PATCH_applications_id id status => auth env req (patch_applications_id env id status)
  | POST_players name totalWin => auth env req (post_players env name totalWin)
  | PATCH_players_id id totalWin => auth env req (patch_players_id id totalWin)
  | DELETE_players_id id => auth env req (delete_players_id id)
  | GET_players => get_players
  | GET_players_weekly => get_players_weekly env
  | GET_players_monthly => get_players_monthly env
  | GET_players_top limit => get_players_top limit
  | GET_players_search q => get_players_search q
  | POST_test_create_sample_players => post_test_create_sample_players env
  end.

(** ** The leaderboard page's search box *)

(** [src/App.tsx], the leaderboard page's own search box: a player passes
    when [player.name.toLowerCase().includes(search.toLowerCase())].  This
    is the literal, case-insensitive substring test (on ASCII letters). *)
Definition toLowerCase (s : list ascii) : list ascii := map to_lower s.

Fixpoint starts_with (sub s : list ascii) : bool :=
  match sub, s with
  | [], _ => true
  | c :: sub', d :: s' => Ascii.eqb c d && starts_with sub' s'
  | _ :: _, [] => false
  end.

Fixpoint js_includes (s sub : list ascii) : bool :=
  starts_with sub s ||
  match s with
  | [] => false
  | _ :: s' => js_includes s' sub
  end.

Definition name_includes (search name : string) : bool :=
  js_includes (toLowerCase (list_ascii_of_string name))
    (toLowerCase (list_ascii_of_string search)).

(** The states the server can reach from the empty database. *)
Inductive reachable : Store -> Prop :=
| reachable_empty : reachable empty_store
| reachable_step env req st resp st' :
    reachable st -> handle env req st = Ok resp st' -> reachable st'.

(** * Vocabulary of the properties *)

(** ** Steps and outcomes of the handlers *)

(** A handler whose whole body sits in a [try]/[catch] that answers with
    [res.json] lets no exception escape. *)
Definition no_throw {A} (m : M A) : Prop :=
  forall st e st', m st <> Throw e st'.

Definition final_store {A} (r : Result A) : option Store :=
  match r with
  | Ok _ st | Throw _ st => Some st
  | Outside => None
  end.

(** The store a request leaves behind. *)
Definition after (env : Env) (req : Request) (st : Store) : Store :=
  match handle env req st with
  | Ok _ st' | Throw _ st' => st'
  | Outside => st
  end.

Definition unauthorized : Response :=
  mkResponse 401 (JMessage "Authentication required").

(** The lookups the workflow performs. *)
Definition find_application (id : ObjectId) (st : Store)
    : option (nat * Application.t) :=
  list_find (fun a => Application._id a = id) (applications st).

Definition find_player_named (n : string) (st : Store)
    : option (nat * Player.t) :=
  list_find (fun p => Player.name p = n) (players st).

(** The document built by [new Player({ name, totalWin, avatar })] when the
    store is [st]. *)
Definition new_player (env : Env) (st : Store) (n : string) (w : Z) : Player.t :=
  Player.mk (nextId st) n w (defaultAvatar n) (now env).

Definition valid_status (status : option string) : bool :=
  includes ["pending"; "approved"; "rejected"] status.

(** The status write: it happens first and is never undone. *)
Definition write_status (i : nat) (a : Application.t) (s : string) (st : Store)
    : Store :=
  set_applications (<[i := Application.set_status s a]> (applications st)) st.

(** The guard of [POST /applications], positively: every required field is
    present and truthy. *)
Definition required_fields_present (b : ApplicationSubmission) : bool :=
  truthy_string (sub_name b) && truthy_string (sub_email b)
  && truthy_string (sub_phoneNumber b) && truthy_string (sub_nickname b)
  && truthy_string (sub_accountName b) && truthy_number (sub_totalWin b).

(** The document a complete submission turns into. *)
Definition submitted_application (env : Env) (st : Store)
    (b : ApplicationSubmission) : Application.t :=
  Application.mk (nextId st)
    (default "" (sub_name b)) (default "" (sub_email b))
    (default "" (sub_phoneNumber b)) (default "" (sub_nickname b))
    (default "" (sub_accountName b)) (default 0%Z (sub_totalWin b))
    (default "" (sub_proofUrl b)) "pending" (now env).

(** The sample-data route: the result, for any store. *)
Definition sample_players (env : Env) (st : Store) : list Player.t :=
  [ Player.mk (nextId st) "Champion123" 50000000 (defaultAvatar "Champion123") (now env);
    Player.mk (1 + nextId st) "LuckyWinner" 35000000 (defaultAvatar "LuckyWinner") (now env);
    Player.mk (2 + nextId st) "GoldHunter" 25000000 (defaultAvatar "GoldHunter") (now env);
    Player.mk (3 + nextId st) "FortuneMaster" 20000000 (defaultAvatar "FortuneMaster") (now env);
    Player.mk (4 + nextId st) "LuckyDragon" 15000000 (defaultAvatar "LuckyDragon") (now env) ].

(** ** Invariants *)

(** How one request can change the [Application] collection: not at all,
    by rewriting the status of one document, or by appending a fresh one. *)
Inductive applications_step (st st' : Store) : Prop :=
| apps_same :
    applications st' = applications st -> applications_step st st'
| apps_status i a s :
    applications st !! i = Some a ->
    applications st' = <[i := Application.set_status s a]> (applications st) ->
    applications_step st st'
| apps_new a :
    applications st' = (applications st ++ [a])%list ->
    Application._id a = nextId st ->
    (nextId st < nextId st')%nat ->
    Application.nickname a <> "" ->
    applications_step st st'.

(** What holds of every application the server has stored: its nickname is
    not empty (the submission guard), and ids are not reused. *)
Record store_inv (st : Store) : Prop := {
  inv_nickname :
    Forall (fun a => Application.nickname a <> "") (applications st);
  inv_nodup : NoDup (Application._id <$> applications st);
  inv_fresh :
    Forall (fun a => (Application._id a < nextId st)%nat) (applications st)
}.

Definition totals_nonneg (st : Store) : Prop :=
  Forall (fun p => (0 <= Player.totalWin p)%Z) (players st).

(** ** Frames and settled claims *)

(** Position [k] of a collection was written: it holds another document
    than before, or a document where there was none. *)
Definition differs {A} (before after : list A) (k : nat) : Prop :=
  after !! k <> before !! k.

(** What one merge may write: at most one position of the players, holding
    afterwards a player that carries the nickname and that differs from the
    player who stood there before, if any, in the total only. *)
Record players_frame (n : string) (st st' : Store) : Prop := {
  frame_named :
    forall k, differs (players st) (players st') k ->
      exists p', players st' !! k = Some p' /\ Player.name p' = n /\
                 forall p, players st !! k = Some p ->
                           exists w, p' = Player.set_totalWin w p;
  frame_one :
    forall k1 k2,
      differs (players st) (players st') k1 ->
      differs (players st) (players st') k2 -> k1 = k2
}.

(** What one review may have written between [st] and [st']. *)
Record review_writes (id : ObjectId) (status : option string)
    (st st' : Store) : Prop := {
  writes_application :
    forall k, differs (applications st) (applications st') k ->
      exists a s, find_application id st = Some (k, a) /\
                  applications st' !! k = Some (Application.set_status s a);
  writes_one_application :
    forall k1 k2,
      differs (applications st) (applications st') k1 ->
      differs (applications st) (applications st') k2 -> k1 = k2;
  writes_player :
    forall k, differs (players st) (players st') k ->
      exists i a p', find_application id st = Some (i, a) /\
                     players st' !! k = Some p' /\
                     Player.name p' = Application.nickname a /\
                     forall p, players st !! k = Some p ->
                               exists w, p' = Player.set_totalWin w p;
  writes_one_player :
    forall k1 k2,
      differs (players st) (players st') k1 ->
      differs (players st) (players st') k2 -> k1 = k2;
  writes_no_application_added :
    length (applications st') = length (applications st);
  writes_players_only_on_approval :
    status <> Some "approved" -> players st' = players st
}.

(** The player's total already reflects the claim: the lookup finds a player
    whose total is at least the claimed amount.  (The second case, an empty
    nickname that no player can carry, does not occur in reachable states.) *)
Definition settled (n : string) (w : Z) (st : Store) : Prop :=
  match find_player_named n st with
  | Some (_, p) => (w <= Player.totalWin p)%Z
  | None => n = ""
  end.

(** ** A running example

    The scenario of the specification: Alice submits a claim of 1000000
    under the nickname AceA, and the administrator reviews it. *)

Definition env0 : Env :=
  mkEnv (fun t => if t =? "admin-token" then Some "admin" else None) 1000 0 0.

Definition admin : option string := Some "Bearer admin-token".

Definition alice : ApplicationSubmission :=
  mkSubmission (Some "Alice") (Some "a@x.com") (Some "555") (Some "AceA")
    (Some "acc1") (Some 1000000%Z) None.

Definition st_submitted : Store :=
  Eval vm_compute in after env0 (mkRequest None (POST_applications alice)) empty_store.

Definition st_approved : Store :=
  Eval vm_compute in
    after env0 (mkRequest admin (PATCH_applications_id 0 (Some "approved"))) st_submitted.

Definition alice_pending : Application.t :=
  Application.mk 0 "Alice" "a@x.com" "555" "AceA" "acc1" 1000000 "" "pending" 1000.

Definition alice_approved : Application.t :=
  Application.set_status "approved" alice_pending.

(** * Vocabulary of the further properties *)

(** ** Lookups and well-formed documents *)

Definition find_player (id : ObjectId) (st : Store) : option (nat * Player.t) :=
  list_find (fun p => Player._id p = id) (players st).

(** The document [POST /api/players] builds for a name and a total. *)
Definition created_player (env : Env) (st : Store) (n : string) (w : Z) : Player.t :=
  Player.mk (nextId st) n w (defaultAvatar n) (now env).


(** Ids are handed out once: no two players share one, and none is ahead of
    the counter. *)
Record players_inv (st : Store) : Prop := {
  inv_player_nodup : NoDup (Player._id <$> players st);
  inv_player_fresh :
    Forall (fun p => (Player._id p < nextId st)%nat) (players st)
}.

(** The total recorded for a nickname: the total of the player the lookup
    by name returns. *)
Definition recorded_total (n : string) (st : Store) : option Z :=
  Player.totalWin ∘ snd <$> find_player_named n st.

(** What one request can do to the [Player] collection. *)
Inductive players_change (env : Env) (st st' : Store) : Prop :=
| players_kept :
    players st' = players st -> (nextId st <= nextId st')%nat ->
    players_change env st st'
| players_added p :
    players st' = (players st ++ [p])%list ->
    Player._id p = nextId st -> (nextId st < nextId st')%nat ->
    players_change env st st'
| players_total i p w :
    players st !! i = Some p ->
    players st' = <[i := Player.set_totalWin w p]> (players st) ->
    (nextId st <= nextId st')%nat ->
    players_change env st st'
| players_deleted i p :
    players st !! i = Some p ->
    players st' = delete i (players st) ->
    (nextId st <= nextId st')%nat ->
    players_change env st st'
| players_sampled :
    players st' = sample_players env st ->
    nextId st' = (5 + nextId st)%nat ->
    players_change env st st'.

(** [Number(req.query.limit) || 10], as a count. *)
Definition effective_limit (limit : option N) : nat :=
  N.to_nat (match limit with
            | Some n => if (n =? 0)%N then 10%N else n
            | None => 10%N
            end).

(** Every player stays where it is, with the same id, name, avatar and
    creation time, and a total that is no smaller. *)
Definition keeps_players (st st' : Store) : Prop :=
  forall k p, players st !! k = Some p ->
    exists w, (Player.totalWin p <= w)%Z /\
              players st' !! k = Some (Player.set_totalWin w p).

(** The total a nickname should end up with once claims [ws] are approved. *)
Definition merged_total (before : option Z) (w1 w2 : Z) : Z :=
  match before with
  | Some t => Z.max t (Z.max w1 w2)
  | None => Z.max w1 w2
  end.

(** Two pending claims under one nickname. *)
Definition st_two_claims : Store :=
  Eval vm_compute in
    after env0
      (mkRequest None
         (POST_applications
            (mkSubmission (Some "Alice") (Some "a@x.com") (Some "555")
               (Some "AceA") (Some "acc1") (Some 500000%Z) None)))
      st_submitted.

(** * The sign-in route and the client *)

(** ** [POST /api/auth/login] *)

(** The configuration the route reads: [process.env.ADMIN_USERNAME] and
    [process.env.ADMIN_PASSWORD], each possibly unset, and [jwt.sign] under
    the configured secret, applied to the payload's [username]. *)
Record LoginEnv := mkLoginEnv {
  ADMIN_USERNAME : option string;
  ADMIN_PASSWORD : option string;
  jwt_sign : option string -> string
}.

(** The body: each field is a string, or absent. *)
Record Credentials := mkCredentials {
  username : option string;
  password : option string
}.

Inductive LoginReply :=
| LoginToken (token : string)
| LoginRefused (code : nat) (message : string).

(** [x === y] on values that are strings or [undefined]. *)
Definition strict_equal (x y : option string) : bool := bool_decide (x = y).

(** [app.post('/api/auth/login')].  The route reads and writes no
    collection. *)
Definition post_auth_login (lenv : LoginEnv) (body : Credentials) : LoginReply :=
  if strict_equal (username body) (ADMIN_USERNAME lenv)
     && strict_equal (password body) (ADMIN_PASSWORD lenv)
  then LoginToken (jwt_sign lenv (username body))
  else LoginRefused 401 "Invalid credentials".

(** ** [services/api.ts]: the interceptors *)

(** The request interceptor: with a truthy token in local storage, the
    request carries [Authorization: Bearer <token>]. *)
Definition request_interceptor (token : option string) : option string :=
  if truthy_string token
  then Some (String.append "Bearer " (default "" token))
  else None.




(** ** [components/ApplicationList.tsx]: the review buttons *)


(** ** [pages/ApplicationPage.tsx]: the older application form *)

Record ApplicationPageForm := mkApplicationPageForm {
  apf_name : string;
  apf_email : string;
  apf_phoneNumber : string;
  apf_totalWin : string;
  apf_proofUrl : string
}.

(** What [handleSubmit] hands to [submitApplication], when it submits at all:
    the five fields of the form, the amount parsed to a number ([amount],
    absent when it is not one). *)
Definition ApplicationPage_body (f : ApplicationPageForm) (amount : option Z)
    : ApplicationSubmission :=
  mkSubmission (Some (apf_name f)) (Some (apf_email f)) (Some (apf_phoneNumber f))
    None None amount (Some (apf_proofUrl f)).

(** ** [pages/LeaderboardPage] in [App.tsx]: pages of ten *)

Definition ITEMS_PER_PAGE : nat := 10.

(** [array.slice(from, to)] for [0 <= from]. *)
Definition slice {A} (from to : nat) (l : list A) : list A :=
  drop from (take to l).

(** [Math.ceil(length / ITEMS_PER_PAGE)]. *)
Definition totalPages {A} (l : list A) : nat :=
  Nat.div (length l + (ITEMS_PER_PAGE - 1)) ITEMS_PER_PAGE.

Definition paginatedPlayers {A} (l : list A) (currentPage : nat) : list A :=
  slice ((currentPage - 1) * ITEMS_PER_PAGE) (currentPage * ITEMS_PER_PAGE) l.

(** The rank shown beside entry [index] of the current page, counted from 0. *)
Definition globalIndex (currentPage index : nat) : nat :=
  (currentPage - 1) * ITEMS_PER_PAGE + index.

(** The page buttons. *)
Definition previousPage (p : nat) : nat := Nat.max 1 (p - 1).
Definition nextPage (total p : nat) : nat := Nat.min total (p + 1).

(** ** [pages/LeaderboardPage] in [App.tsx]: filter and sort *)

(** [array.sort(compare)].  The sort of an array is stable, so for a
    consistent comparator its result is the one an insertion sort gives. *)
Fixpoint js_insert {A} (compare : A -> A -> Z) (x : A) (l : list A) : list A :=
  match l with
  | [] => [x]
  | y :: l' =>
      if (compare x y <=? 0)%Z then x :: l else y :: js_insert compare x l'
  end.

Definition js_sort {A} (compare : A -> A -> Z) (l : list A) : list A :=
  foldr (js_insert compare) [] l.

Inductive SortBy := ByTotalWin | ByName.
Inductive SortOrder := Asc | Desc.

(** The comparator of [filteredAndSortedPlayers]; [localeCompare] is the
    browser's. *)
Definition compare_players (localeCompare : string -> string -> Z)
    (sortBy : SortBy) (sortOrder : SortOrder) (a b : Player.t) : Z :=
  let modifier := match sortOrder with Asc => 1 | Desc => -1 end in
  match sortBy with
  | ByTotalWin => (Player.totalWin a - Player.totalWin b) * modifier
  | ByName => localeCompare (Player.name a) (Player.name b) * modifier
  end%Z.

Definition filteredAndSortedPlayers (localeCompare : string -> string -> Z)
    (players : list Player.t) (search : string)
    (sortBy : SortBy) (sortOrder : SortOrder) : list Player.t :=
  let result :=
    if negb (search =? "")
    then List.filter (fun player => name_includes search (Player.name player)) players
    else players in
  js_sort (compare_players localeCompare sortBy sortOrder) result.

(** The order the page is in when it sorts by total. *)
Definition by_totalWin (sortOrder : SortOrder) (a b : Player.t) : Prop :=
  match sortOrder with
  | Asc => (Player.totalWin a <= Player.totalWin b)%Z
  | Desc => (Player.totalWin b <= Player.totalWin a)%Z
  end.

(** ** [pages/ApplyPage.tsx]: the application form *)









(** * Properties *)

(** ** The monad and the gate *)

Lemma try_catch_json_no_throw (m : M Response) code b :
  no_throw (try_catch m (fun _ => json code b)).
Proof.
  intros st e st'. unfold try_catch, json, ret.
  destruct (m st); discriminate.
Qed.

Lemma try_catch_no_throw {A} (m : M A) handler st :
  (forall e st', m st <> Throw e st') -> try_catch m handler st = m st.
Proof.
  intros H. unfold try_catch. destruct (m st) eqn:E; try reflexivity.
  exfalso. eapply H. reflexivity.
Qed.

Lemma patch_applications_id_no_throw env id status :
  no_throw (patch_applications_id env id status).
Proof. apply try_catch_json_no_throw. Qed.

Lemma post_players_no_throw env name totalWin :
  no_throw (post_players env name totalWin).
Proof. apply try_catch_json_no_throw. Qed.

Lemma patch_players_id_no_throw id totalWin :
  no_throw (patch_players_id id totalWin).
Proof. apply try_catch_json_no_throw. Qed.

Lemma delete_players_id_no_throw id : no_throw (delete_players_id id).
Proof. apply try_catch_json_no_throw. Qed.

Lemma get_applications_no_throw : no_throw get_applications.
Proof. apply try_catch_json_no_throw. Qed.

Create HintDb gate.
#[global] Hint Resolve patch_applications_id_no_throw post_players_no_throw
  patch_players_id_no_throw delete_players_id_no_throw
  get_applications_no_throw : gate.

(** Without a principal the middleware answers 401 and never runs [next]. *)
Lemma auth_unauthorized env req next st :
  authenticated env (authorization req) = None ->
  auth env req next st =
    Ok (mkResponse 401 (JMessage "Authentication required")) st.
Proof.
  unfold authenticated, auth, try_catch, throw, json, ret.
  destruct (truthy_string (bearer_token (authorization req))); simpl; [|reflexivity].
  intros ->. reflexivity.
Qed.

(** With a principal the middleware is transparent. *)
Lemma auth_authorized env req next st u :
  authenticated env (authorization req) = Some u ->
  no_throw next ->
  auth env req next st = next st.
Proof.
  unfold authenticated, auth. intros Hu Hnext.
  destruct (truthy_string (bearer_token (authorization req))); simpl in *; [|discriminate].
  rewrite Hu. apply try_catch_no_throw. intros e st'. apply Hnext.
Qed.

Lemma prefix_append p t : String.prefix p (String.append p t) = true.
Proof.
  induction p as [|c p IH]; simpl.
  - destruct t; reflexivity.
  - destruct (ascii_dec c c); [apply IH | congruence].
Qed.

Lemma substring_all t : substring 0 (String.length t) t = t.
Proof. induction t as [|d t IHt]; simpl; [reflexivity | now rewrite IHt]. Qed.

Lemma substring_append p t :
  substring (String.length p) (String.length t) (String.append p t) = t.
Proof. induction p as [|c p IH]; simpl; [apply substring_all | apply IH]. Qed.

Lemma length_append p t :
  String.length (String.append p t) = (String.length p + String.length t)%nat.
Proof. induction p; simpl; [reflexivity | now f_equal]. Qed.

Lemma remove_first_unfold pat s :
  remove_first pat s =
    if String.prefix pat s
    then substring (String.length pat) (String.length s - String.length pat) s
    else match s with
         | EmptyString => EmptyString
         | String c s' => String c (remove_first pat s')
         end.
Proof. destruct s; reflexivity. Qed.

Lemma remove_first_prefix pat s : remove_first pat (String.append pat s) = s.
Proof.
  rewrite remove_first_unfold, prefix_append, length_append.
  replace (String.length pat + String.length s - String.length pat)%nat
    with (String.length s) by lia.
  apply substring_append.
Qed.

(** The two ways a request carries no valid bearer token: no
    [Authorization] header at all, or a [Bearer] token that is empty or
    that [jwt.verify] refuses. *)
Lemma no_header_unauthenticated env : authenticated env None = None.
Proof. reflexivity. Qed.



(** ** The review workflow, step by step *)

Lemma valid_status_cases s :
  valid_status (Some s) = true <->
  s = "pending" \/ s = "approved" \/ s = "rejected".
Proof.
  unfold valid_status, includes. simpl. rewrite !orb_true_iff.
  rewrite !String.eqb_eq. intuition congruence.
Qed.

(** The three ways through [merge_player], for one application and one
    store. *)
Section Merge.
Variables (env : Env) (a : Application.t) (st : Store).

Lemma merge_player_found j p :
  find_player_named (Application.nickname a) st = Some (j, p) ->
  merge_player env a st =
    Ok tt (if (Application.totalWin a >? Player.totalWin p)%Z
           then set_players
                  (<[j := Player.set_totalWin (Application.totalWin a) p]> (players st)) st
           else st).
Proof.
  unfold find_player_named, merge_player, bind, Player_findOne_name.
  intros ->. destruct (_ >? _)%Z; reflexivity.
Qed.

Lemma merge_player_new :
  find_player_named (Application.nickname a) st = None ->
  Application.nickname a <> "" ->
  merge_player env a st =
    Ok tt (mkStore
             (players st ++
                [new_player env st (Application.nickname a) (Application.totalWin a)])
             (applications st) (S (nextId st))).
Proof.
  unfold find_player_named, merge_player, bind, Player_findOne_name.
  intros -> Hn. unfold Player_create.
  destruct (String.eqb_spec (Application.nickname a) ""); [contradiction|].
  reflexivity.
Qed.

Lemma merge_player_invalid :
  find_player_named (Application.nickname a) st = None ->
  Application.nickname a = "" ->
  merge_player env a st = Throw ValidationError st.
Proof.
  unfold find_player_named, merge_player, bind, Player_findOne_name.
  intros -> Hn. unfold Player_create. rewrite Hn. reflexivity.
Qed.

(** The merge never leaves the model, and touches the players only. *)
Lemma merge_player_cases :
  (exists st', merge_player env a st = Ok tt st'
               /\ applications st' = applications st
               /\ (nextId st <= nextId st')%nat) \/
  (merge_player env a st = Throw ValidationError st).
Proof.
  destruct (find_player_named (Application.nickname a) st) as [[j p]|] eqn:F.
  - left. rewrite (merge_player_found _ _ F).
    eexists; split; [reflexivity|]. destruct (_ >? _)%Z; simpl; auto.
  - destruct (String.eqb_spec (Application.nickname a) "") as [E|E].
    + right. now apply merge_player_invalid.
    + left. rewrite (merge_player_new F E).
      eexists; split; [reflexivity|]. simpl; auto.
Qed.

End Merge.

Lemma patch_applications_id_invalid env id status st :
  valid_status status = false ->
  patch_applications_id env id status st =
    Ok (mkResponse 400 (JMessage "Invalid status")) st.
Proof.
  unfold valid_status, patch_applications_id, try_catch. intros ->. reflexivity.
Qed.

Lemma patch_applications_id_not_found env id s st :
  valid_status (Some s) = true ->
  find_application id st = None ->
  patch_applications_id env id (Some s) st =
    Ok (mkResponse 404 (JMessage "Application not found")) st.
Proof.
  unfold valid_status, find_application, patch_applications_id, try_catch, bind,
    Application_findByIdAndUpdate.
  intros -> H. cbn [negb]. change (default "" (Some s)) with s.
  cbv beta zeta. rewrite H. reflexivity.
Qed.

Lemma patch_applications_id_found env id s st i a :
  valid_status (Some s) = true ->
  find_application id st = Some (i, a) ->
  patch_applications_id env id (Some s) st =
    let a' := Application.set_status s a in
    if s =? "approved"
    then match merge_player env a' (write_status i a s st) with
         | Ok _ st' => Ok (mkResponse 200 (JApplication a')) st'
         | Throw _ st' =>
             Ok (mkResponse 400 (JMessage "Error updating application")) st'
         | Outside => Outside
         end
    else Ok (mkResponse 200 (JApplication a')) (write_status i a s st).
Proof.
  unfold valid_status, find_application, patch_applications_id, try_catch, bind,
    Application_findByIdAndUpdate, write_status.
  intros -> H. cbn [negb]. change (default "" (Some s)) with s.
  cbv beta zeta. rewrite H.
  destruct (s =? "approved"); [|reflexivity].
  destruct (merge_player _ _ _); reflexivity.
Qed.

(** The route as the application serves it, for an authenticated caller. *)
Lemma handle_review_authenticated env h u id status st :
  authenticated env h = Some u ->
  handle env (mkRequest h (PATCH_applications_id id status)) st =
    patch_applications_id env id status st.
Proof.
  intros Hu. unfold handle. cbn [route].
  eapply auth_authorized; [exact Hu | auto with gate].
Qed.

Lemma handle_review_unauthenticated env h id status st :
  authenticated env h = None ->
  handle env (mkRequest h (PATCH_applications_id id status)) st =
    Ok (mkResponse 401 (JMessage "Authentication required")) st.
Proof. intros Hu. unfold handle. cbn [route]. now apply auth_unauthorized. Qed.

(** ** The other routes, one by one *)

Lemma truthy_string_Some x :
  truthy_string x = true <-> exists s, x = Some s /\ s <> "".
Proof.
  destruct x as [s|]; simpl.
  - destruct (String.eqb_spec s ""); simpl; split.
    + discriminate.
    + intros (s' & [= <-] & Hs). contradiction.
    + eauto.
    + reflexivity.
  - split; [discriminate | intros (s & [=] & _)].
Qed.


Lemma post_applications_guard b :
  negb (truthy_string (sub_name b)) || negb (truthy_string (sub_email b))
  || negb (truthy_string (sub_phoneNumber b))
  || negb (truthy_string (sub_nickname b))
  || negb (truthy_string (sub_accountName b))
  || negb (truthy_number (sub_totalWin b))
  = negb (required_fields_present b).
Proof.
  unfold required_fields_present.
  repeat match goal with |- context [truthy_string ?x] =>
    destruct (truthy_string x) end;
  destruct (truthy_number _); reflexivity.
Qed.

Lemma post_applications_missing env b st :
  required_fields_present b = false ->
  post_applications env b st =
    Ok (mkResponse 400 (JMessage "Required fields are missing")) st.
Proof.
  intros H. unfold post_applications, try_catch.
  rewrite post_applications_guard, H. reflexivity.
Qed.

Lemma post_applications_created env b st :
  required_fields_present b = true ->
  post_applications env b st =
    Ok (mkResponse 201 (JApplication (submitted_application env st b)))
       (mkStore (players st)
          (applications st ++ [submitted_application env st b])
          (S (nextId st))).
Proof.
  intros H. unfold post_applications, try_catch.
  rewrite post_applications_guard, H. reflexivity.
Qed.

Lemma post_applications_step env b st resp st' :
  post_applications env b st = Ok resp st' ->
  (nextId st <= nextId st')%nat /\ players st' = players st /\
  applications_step st st'.
Proof.
  destruct (required_fields_present b) eqn:G.
  - rewrite (post_applications_created _ _ _ G). intros [= <- <-]. cbn.
    split; [lia|]. split; [reflexivity|].
    eapply apps_new; cbn; try reflexivity; try lia.
    unfold required_fields_present in G. rewrite !andb_true_iff in G.
    destruct G as [[[[[_ _] _] Hn] _] _].
    apply truthy_string_Some in Hn as (n & Hb & Hn).
    cbn. rewrite Hb. exact Hn.
  - rewrite (post_applications_missing _ _ _ G). intros [= <- <-].
    split; [lia|]. split; [reflexivity|]. now apply apps_same.
Qed.

Lemma patch_applications_id_step env id status st resp st' :
  patch_applications_id env id status st = Ok resp st' ->
  (nextId st <= nextId st')%nat /\ applications_step st st'.
Proof.
  destruct (valid_status status) eqn:V.
  2:{ rewrite (patch_applications_id_invalid _ _ _ _ V). intros [= <- <-].
      split; [lia | now apply apps_same]. }
  destruct status as [s|]; [|discriminate].
  destruct (find_application id st) as [[i a]|] eqn:F.
  2:{ rewrite (patch_applications_id_not_found _ _ _ _ V F). intros [= <- <-].
      split; [lia | now apply apps_same]. }
  rewrite (patch_applications_id_found _ _ _ _ _ _ V F). cbv zeta.
  apply list_find_Some in F as (Hi & _ & _).
  destruct (s =? "approved").
  - destruct (merge_player_cases env (Application.set_status s a)
                (write_status i a s st)) as [(st2 & -> & Ha & Hn)| ->];
      intros [= <- <-].
    + split; [exact Hn|]. eapply apps_status; [exact Hi | exact Ha].
    + split; [cbn; lia|]. eapply apps_status; [exact Hi | reflexivity].
  - intros [= <- <-]. split; [cbn; lia|].
    eapply apps_status; [exact Hi | reflexivity].
Qed.

(** The player routes and the queries leave the applications alone. *)
Lemma post_players_frame env name totalWin st resp st' :
  post_players env name totalWin st = Ok resp st' ->
  (nextId st <= nextId st')%nat /\ applications st' = applications st.
Proof.
  unfold post_players, Player_create, new_ObjectId. intros H.
  destruct name as [n|], totalWin as [w|]; cbn in H;
    try (injection H as <- <-; split; [lia | reflexivity]).
  destruct (n =? ""); cbn in H; injection H as <- <-; cbn; split; auto; lia.
Qed.

Lemma patch_players_id_frame id totalWin st resp st' :
  patch_players_id id totalWin st = Ok resp st' ->
  nextId st' = nextId st /\ applications st' = applications st.
Proof.
  unfold patch_players_id, Player_findByIdAndUpdate, try_catch, bind. intros H.
  destruct (list_find _ _) as [[i p]|]; [destruct totalWin|];
    cbn in H; injection H as <- <-; split; reflexivity.
Qed.

Lemma delete_players_id_frame id st resp st' :
  delete_players_id id st = Ok resp st' ->
  nextId st' = nextId st /\ applications st' = applications st.
Proof.
  unfold delete_players_id, Player_findByIdAndDelete, try_catch, bind. intros H.
  destruct (list_find _ _) as [[i p]|];
    cbn in H; injection H as <- <-; split; reflexivity.
Qed.

(** The read-only routes answer from the store without writing to it. *)
Lemma get_applications_spec st :
  get_applications st =
    Ok (mkResponse 200 (JApplications (sort_createdAt_desc (applications st)))) st.
Proof. reflexivity. Qed.

Lemma get_players_spec st :
  get_players st =
    Ok (mkResponse 200 (JPlayers (sort_totalWin_desc
          (List.filter (fun _ => true) (players st))))) st.
Proof. reflexivity. Qed.

Lemma get_players_weekly_spec env st :
  get_players_weekly env st =
    Ok (mkResponse 200 (JPlayers (sort_totalWin_desc
          (List.filter (fun p => (startOfWeek env <=? Player.createdAt p)%Z)
             (players st))))) st.
Proof. reflexivity. Qed.

Lemma get_players_monthly_spec env st :
  get_players_monthly env st =
    Ok (mkResponse 200 (JPlayers (sort_totalWin_desc
          (List.filter (fun p => (startOfMonth env <=? Player.createdAt p)%Z)
             (players st))))) st.
Proof. reflexivity. Qed.

Lemma get_players_top_spec limit st :
  exists n,
    get_players_top limit st =
      Ok (mkResponse 200 (JPlayers (take n (sort_totalWin_desc
            (List.filter (fun _ => true) (players st)))))) st.
Proof. eexists. reflexivity. Qed.

Lemma get_players_search_spec q st :
  get_players_search q st =
    match regex_compile q with
    | RxOk r =>
        Ok (mkResponse 200 (JPlayers (sort_totalWin_desc
              (List.filter (fun p => regex_test r (Player.name p)) (players st))))) st
    | RxInvalid => Ok (mkResponse 500 (JMessage "Error searching players")) st
    | RxUnmodelled => Outside
    end.
Proof.
  unfold get_players_search, Player_find_regex, try_catch, bind.
  destruct (regex_compile q); reflexivity.
Qed.

Lemma post_test_create_sample_players_spec env st :
  post_test_create_sample_players env st =
    Ok (mkResponse 201 (JMessage "Sample players created"))
       (mkStore (sample_players env st) (applications st) (5 + nextId st)).
Proof. reflexivity. Qed.

(** ** Invariants of the reachable states *)

(** Going through the gate in a proof about [handle]: either the caller
    has no principal and the answer is 401 on the same store, or the
    handler behind the gate runs. *)
Ltac through_gate env h A :=
  destruct (authenticated env h) eqn:A;
  [ erewrite auth_authorized by (cbn; eauto with gate)
  | rewrite auth_unauthorized by exact A ].

Lemma handle_applications_step env req st resp st' :
  handle env req st = Ok resp st' ->
  (nextId st <= nextId st')%nat /\ applications_step st st'.
Proof.
  destruct req as [h r]. unfold handle. cbn [route].
  assert (Hsame : forall s, Ok s st = Ok resp st' ->
            (nextId st <= nextId st')%nat /\ applications_step st st').
  { intros s [= _ <-]. split; [lia | now apply apps_same]. }
  destruct r as [b| |id status|name w|id w|id| | | |limit|q|].
  - intros H. apply post_applications_step in H. tauto.
  - through_gate env h A; [rewrite get_applications_spec|]; apply Hsame.
  - through_gate env h A; [apply patch_applications_id_step | apply Hsame].
  - through_gate env h A; [|apply Hsame].
    intros H. apply post_players_frame in H as [? E].
    split; [assumption | now apply apps_same].
  - through_gate env h A; [|apply Hsame].
    intros H. apply patch_players_id_frame in H as [E1 E2].
    split; [lia | now apply apps_same].
  - through_gate env h A; [|apply Hsame].
    intros H. apply delete_players_id_frame in H as [E1 E2].
    split; [lia | now apply apps_same].
  - rewrite get_players_spec. apply Hsame.
  - rewrite get_players_weekly_spec. apply Hsame.
  - rewrite get_players_monthly_spec. apply Hsame.
  - destruct (get_players_top_spec limit st) as [n ->]. apply Hsame.
  - rewrite get_players_search_spec.
    destruct (regex_compile q); try discriminate; apply Hsame.
  - rewrite post_test_create_sample_players_spec. intros [= <- <-]. cbn.
    split; [lia | now apply apps_same].
Qed.

Lemma store_inv_empty : store_inv empty_store.
Proof. split; cbn; constructor. Qed.

Lemma store_inv_step st st' :
  (nextId st <= nextId st')%nat -> applications_step st st' ->
  store_inv st -> store_inv st'.
Proof.
  intros Hn Hstep [I1 I2 I3].
  destruct Hstep as [E | i a s Hi E | a E Hid Hlt Hnick]; rewrite ?E.
  - split; rewrite ?E; auto.
    eapply Forall_impl; [exact I3 | cbn; intros; lia].
  - assert (Hfm : Application._id <$> <[i := Application.set_status s a]> (applications st)
                  = Application._id <$> applications st).
    { rewrite list_fmap_insert. apply list_insert_id.
      rewrite list_lookup_fmap, Hi. reflexivity. }
    split; rewrite E.
    + apply Forall_insert; [exact I1|].
      cbn. eapply (Forall_lookup_1 _ _ _ _ I1 Hi).
    + rewrite Hfm. exact I2.
    + apply Forall_insert.
      * eapply Forall_impl; [exact I3 | cbn; intros; lia].
      * cbn. pose proof (Forall_lookup_1 _ _ _ _ I3 Hi) as H. cbn in H. lia.
  - split; rewrite E.
    + apply Forall_app; split; [exact I1 | repeat constructor; exact Hnick].
    + rewrite fmap_app. apply NoDup_app. split; [exact I2|]. split.
      * intros x Hx Hx'. cbn in Hx'. apply list_elem_of_singleton in Hx'. subst x.
        apply list_elem_of_fmap in Hx as (y & Hy & Hin).
        rewrite Forall_forall in I3. apply I3 in Hin. lia.
      * cbn. apply NoDup_singleton.
    + apply Forall_app; split.
      * eapply Forall_impl; [exact I3 | cbn; intros; lia].
      * repeat constructor. lia.
Qed.

Lemma reachable_store_inv st : reachable st -> store_inv st.
Proof.
  induction 1 as [|env req st resp st' _ IH Hstep].
  - apply store_inv_empty.
  - apply handle_applications_step in Hstep as [Hn Hs].
    eapply store_inv_step; eassumption.
Qed.

(** In a reachable state an application is found under its own id. *)
Lemma find_application_present st a :
  store_inv st -> a ∈ applications st ->
  exists i, find_application (Application._id a) st = Some (i, a).
Proof.
  intros [_ Hnd _] Hin. apply list_elem_of_lookup_1 in Hin as [i Hi].
  exists i. apply list_find_Some. split; [exact Hi|]. split; [reflexivity|].
  intros j y Hj Hlt Heq.
  assert (i = j); [|lia].
  apply (NoDup_lookup _ i j (Application._id a) Hnd);
    rewrite list_lookup_fmap; [rewrite Hi | rewrite Hj]; cbn; congruence.
Qed.

(** ** The running example is reachable *)

Lemma st_submitted_reachable : reachable st_submitted.
Proof.
  apply (reachable_step env0 (mkRequest None (POST_applications alice))
           empty_store
           (mkResponse 201 (JApplication alice_pending)));
    [apply reachable_empty | reflexivity].
Defined.

Lemma st_approved_reachable : reachable st_approved.
Proof.
  apply (reachable_step env0
           (mkRequest admin (PATCH_applications_id 0 (Some "approved")))
           st_submitted
           (mkResponse 200 (JApplication alice_approved)));
    [apply st_submitted_reachable | reflexivity].
Defined.

Example st_submitted_value :
  st_submitted = mkStore [] [alice_pending] 1.
Proof. reflexivity. Qed.

Example st_approved_value :
  st_approved =
    mkStore [Player.mk 1 "AceA" 1000000 (defaultAvatar "AceA") 1000]
            [alice_approved] 2.
Proof. reflexivity. Qed.

(** The rest of the specification's scenario: a second claim of 500000
    under the same nickname leaves the player's total at 1000000, a third
    one of 2000000 raises it. *)
Example scenario_second_and_third_claim :
  let submit w :=
    mkRequest None
      (POST_applications
         (mkSubmission (Some "Alice") (Some "a@x.com") (Some "555") (Some "AceA")
            (Some "acc1") (Some w) None)) in
  let approve id := mkRequest admin (PATCH_applications_id id (Some "approved")) in
  let st2 := after env0 (approve 2%nat) (after env0 (submit 500000%Z) st_approved) in
  let st3 := after env0 (approve 3%nat) (after env0 (submit 2000000%Z) st2) in
  players st2 = [Player.mk 1 "AceA" 1000000 (defaultAvatar "AceA") 1000] /\
  players st3 = [Player.mk 1 "AceA" 2000000 (defaultAvatar "AceA") 1000].
Proof. split; reflexivity. Qed.

(** ** The merge policy *)

Lemma set_totalWin_same p : Player.set_totalWin (Player.totalWin p) p = p.
Proof. destruct p; reflexivity. Qed.

(** C1. Approving an application that is in the store reconciles the
    players with it.  The administrator's request is answered 200 with the
    approved application.  When the lookup by name finds a player, that
    player's total becomes the maximum of its old total and the claimed
    amount (so nothing changes when the claim is not higher); when it finds
    none, a player with the nickname, the claimed amount and the default
    avatar of the nickname is appended.  Either way a player with the
    nickname and a total of at least the claimed amount exists afterwards. *)
Theorem approve_reconciles_player env h u st a :
  reachable st ->
  authenticated env h = Some u ->
  a ∈ applications st ->
  let N := Application.nickname a in
  let W := Application.totalWin a in
  exists st',
    handle env
      (mkRequest h (PATCH_applications_id (Application._id a) (Some "approved")))
      st
    = Ok (mkResponse 200 (JApplication (Application.set_status "approved" a))) st'
    /\ match find_player_named N st with
       | Some (j, p) =>
           players st' =
             <[j := Player.set_totalWin (Z.max (Player.totalWin p) W) p]> (players st)
           /\ ((W <= Player.totalWin p)%Z -> players st' = players st)
       | None =>
           players st' = (players st ++ [new_player env st N W])%list
       end
    /\ exists p, p ∈ players st' /\ Player.name p = N /\ (W <= Player.totalWin p)%Z.
Proof.
  intros Hreach Hauth Hin N W.
  pose proof (reachable_store_inv _ Hreach) as Hinv.
  destruct (find_application_present _ _ Hinv Hin) as [i Hfind].
  assert (Hnick : N <> "").
  { destruct Hinv as [Hn _ _]. rewrite Forall_forall in Hn. now apply Hn. }
  rewrite (handle_review_authenticated _ _ _ _ _ _ Hauth).
  rewrite (patch_applications_id_found env _ "approved" st i a eq_refl Hfind).
  cbv zeta. change ("approved" =? "approved") with true. cbv iota.
  set (a' := Application.set_status "approved" a).
  set (st1 := write_status i a "approved" st).
  assert (Hfp : find_player_named (Application.nickname a') st1
                = find_player_named N st) by reflexivity.
  destruct (find_player_named N st) as [[j p]|] eqn:F.
  - rewrite (merge_player_found env a' st1 j p Hfp).
    apply list_find_Some in F as (Hj & Hname & _).
    change (Application.totalWin a') with W.
    destruct (Z.gtb_spec W (Player.totalWin p)) as [Hgt|Hle].
    + eexists. split; [reflexivity|]. cbn [players set_players st1 write_status set_applications].
      rewrite Z.max_r by lia. split; [split; [reflexivity | intros; lia]|].
      exists (Player.set_totalWin W p). split.
      * apply list_elem_of_lookup_2 with j. apply list_lookup_insert_eq.
        now apply lookup_lt_Some in Hj.
      * split; [exact Hname | cbn; lia].
    + eexists. split; [reflexivity|]. cbn [players st1 write_status set_applications].
      rewrite Z.max_l by lia. rewrite set_totalWin_same.
      rewrite (list_insert_id _ _ _ Hj). split; [split; [reflexivity | reflexivity]|].
      exists p. split; [now apply list_elem_of_lookup_2 with j|]. split; [exact Hname | lia].
  - rewrite (merge_player_new env a' st1 Hfp Hnick).
    eexists. split; [reflexivity|]. cbn [players].
    split; [reflexivity|].
    exists (new_player env st N W). split.
    + apply elem_of_app. right. apply list_elem_of_singleton. reflexivity.
    + split; [reflexivity | cbn; lia].
Qed.

Lemma approve_reconciles_player_witness :
  exists st',
    handle env0 (mkRequest admin (PATCH_applications_id 0 (Some "approved")))
      st_submitted
    = Ok (mkResponse 200 (JApplication alice_approved)) st'
    /\ players st' = [Player.mk 1 "AceA" 1000000 (defaultAvatar "AceA") 1000]
    /\ exists p, p ∈ players st' /\ Player.name p = "AceA"
                 /\ (1000000 <= Player.totalWin p)%Z.
Proof.
  apply (approve_reconciles_player env0 admin "admin" st_submitted alice_pending).
  - exact st_submitted_reachable.
  - reflexivity.
  - apply list_elem_of_here.
Defined.

(** ** Status transitions *)

Lemma find_application_write_status id st i a s st' :
  find_application id st = Some (i, a) ->
  applications st' = <[i := Application.set_status s a]> (applications st) ->
  find_application id st' = Some (i, Application.set_status s a).
Proof.
  unfold find_application. intros F E. rewrite E.
  apply list_find_Some in F as (Hi & Hid & Hleast).
  apply list_find_Some. split; [|split].
  - apply list_lookup_insert_eq. eapply lookup_lt_Some, Hi.
  - exact Hid.
  - intros j y Hj Hlt. rewrite list_lookup_insert_ne in Hj by lia. eauto.
Qed.

(** Whatever happens in the merge, the status write stays. *)
Lemma patch_applications_id_writes env id s st i a :
  valid_status (Some s) = true ->
  find_application id st = Some (i, a) ->
  exists resp st',
    patch_applications_id env id (Some s) st = Ok resp st' /\
    applications st' = <[i := Application.set_status s a]> (applications st).
Proof.
  intros V F. rewrite (patch_applications_id_found _ _ _ _ _ _ V F). cbv zeta.
  destruct (s =? "approved").
  - destruct (merge_player_cases env (Application.set_status s a)
                (write_status i a s st)) as [(st2 & -> & Ha & _)| ->].
    + eexists _, _. split; [reflexivity | exact Ha].
    + eexists _, _. split; reflexivity.
  - eexists _, _. split; reflexivity.
Qed.

(** C2, as the code has it.  The status is not write-once: an authenticated
    review with one of the values pending, approved or rejected sets the
    status of the application it finds to that value, whatever the status
    was, the terminal ones included. *)
Theorem review_overwrites_any_status env h u id s st i a :
  authenticated env h = Some u ->
  s = "pending" \/ s = "approved" \/ s = "rejected" ->
  find_application id st = Some (i, a) ->
  exists resp st',
    handle env (mkRequest h (PATCH_applications_id id (Some s))) st = Ok resp st'
    /\ find_application id st' = Some (i, Application.set_status s a)
    /\ Application.status (Application.set_status s a) = s.
Proof.
  intros Hauth Hs F. apply valid_status_cases in Hs.
  rewrite (handle_review_authenticated _ _ _ _ _ _ Hauth).
  destruct (patch_applications_id_writes env id s st i a Hs F)
    as (resp & st' & -> & E).
  exists resp, st'. split; [reflexivity|]. split; [|reflexivity].
  eapply find_application_write_status; eassumption.
Qed.

Lemma review_overwrites_any_status_witness :
  exists resp st',
    handle env0 (mkRequest admin (PATCH_applications_id 0 (Some "pending")))
      st_approved = Ok resp st'
    /\ find_application 0 st' =
         Some (0%nat, Application.set_status "pending" alice_approved)
    /\ Application.status (Application.set_status "pending" alice_approved)
       = "pending".
Proof.
  apply (review_overwrites_any_status env0 admin "admin" 0 "pending"
           st_approved 0 alice_approved).
  - reflexivity.
  - left. reflexivity.
  - reflexivity.
Defined.

(** C2, as stated, fails: an approved application is reviewed again, the
    request is accepted and the status moves from approved to rejected. *)
Lemma approved_then_rejected :
  alice_approved ∈ applications st_approved /\
  Application.status alice_approved = "approved" /\
  handle env0 (mkRequest admin (PATCH_applications_id 0 (Some "rejected")))
    st_approved
  = Ok (mkResponse 200
          (JApplication (Application.set_status "rejected" alice_approved)))
       (set_applications [Application.set_status "rejected" alice_approved]
          st_approved).
Proof. split; [apply list_elem_of_here | split; reflexivity]. Qed.

(** ** Validation of the decision *)

(** C3, as the code has it.  A status value other than pending, approved
    and rejected (an absent one included) is refused before anything is
    written: 400 for an authenticated caller, 401 for any other, and the
    store is the same afterwards. *)
Theorem invalid_status_no_write env h id status st :
  status <> Some "pending" ->
  status <> Some "approved" ->
  status <> Some "rejected" ->
  handle env (mkRequest h (PATCH_applications_id id status)) st =
    Ok (match authenticated env h with
        | Some _ => mkResponse 400 (JMessage "Invalid status")
        | None => mkResponse 401 (JMessage "Authentication required")
        end) st.
Proof.
  intros H1 H2 H3.
  assert (V : valid_status status = false).
  { destruct status as [s|]; [|reflexivity].
    destruct (valid_status (Some s)) eqn:V; [|reflexivity].
    apply valid_status_cases in V. intuition congruence. }
  destruct (authenticated env h) eqn:A.
  - rewrite (handle_review_authenticated _ _ _ _ _ _ A).
    now apply patch_applications_id_invalid.
  - now apply handle_review_unauthenticated.
Qed.

Lemma invalid_status_no_write_witness :
  handle env0 (mkRequest admin (PATCH_applications_id 0 (Some "done")))
    st_submitted
  = Ok (mkResponse 400 (JMessage "Invalid status")) st_submitted.
Proof.
  apply (invalid_status_no_write env0 admin 0 (Some "done") st_submitted);
    discriminate.
Defined.

(** C3, as stated, fails: the value pending is neither approved nor
    rejected, yet the request is accepted and rewrites the application. *)
Lemma pending_is_accepted :
  Some "pending" <> Some "approved" /\ Some "pending" <> Some "rejected" /\
  handle env0 (mkRequest admin (PATCH_applications_id 0 (Some "pending")))
    st_approved
  = Ok (mkResponse 200
          (JApplication (Application.set_status "pending" alice_approved)))
       (set_applications [Application.set_status "pending" alice_approved]
          st_approved) /\
  set_applications [Application.set_status "pending" alice_approved] st_approved
    <> st_approved.
Proof. repeat split; try discriminate; reflexivity. Qed.

(** ** Repeated approval *)

Lemma find_player_named_ext n st st' :
  players st' = players st -> find_player_named n st' = find_player_named n st.
Proof. unfold find_player_named. now intros ->. Qed.

Lemma settled_ext n w st st' :
  players st' = players st -> settled n w st -> settled n w st'.
Proof. unfold settled. intros E. now rewrite (find_player_named_ext _ _ _ E). Qed.

Lemma find_player_named_insert n st j p w st' :
  find_player_named n st = Some (j, p) ->
  players st' = <[j := Player.set_totalWin w p]> (players st) ->
  find_player_named n st' = Some (j, Player.set_totalWin w p).
Proof.
  unfold find_player_named. intros F E. rewrite E.
  apply list_find_Some in F as (Hj & Hn & Hleast).
  apply list_find_Some. split; [|split].
  - apply list_lookup_insert_eq. eapply lookup_lt_Some, Hj.
  - exact Hn.
  - intros k y Hk Hlt. rewrite list_lookup_insert_ne in Hk by lia. eauto.
Qed.

Lemma find_player_named_snoc n st p st' :
  find_player_named n st = None ->
  Player.name p = n ->
  players st' = (players st ++ [p])%list ->
  find_player_named n st' = Some (length (players st), p).
Proof.
  unfold find_player_named. intros F Hn E. rewrite E.
  rewrite (list_find_app_r _ _ _ F). cbn.
  rewrite decide_True by exact Hn. reflexivity.
Qed.

(** After a merge, successful or not, the claim is settled. *)
Lemma merge_player_settles env a st :
  (exists st1, merge_player env a st = Ok tt st1 /\
               applications st1 = applications st /\
               settled (Application.nickname a) (Application.totalWin a) st1) \/
  (merge_player env a st = Throw ValidationError st /\
   settled (Application.nickname a) (Application.totalWin a) st).
Proof.
  destruct (find_player_named (Application.nickname a) st) as [[j p]|] eqn:F.
  - left. rewrite (merge_player_found _ _ _ _ _ F).
    eexists. split; [reflexivity|].
    destruct (Z.gtb_spec (Application.totalWin a) (Player.totalWin p)).
    + split; [reflexivity|]. unfold settled.
      erewrite find_player_named_insert; [| exact F | reflexivity]. cbn. lia.
    + split; [reflexivity|]. unfold settled. rewrite F. lia.
  - destruct (String.eqb_spec (Application.nickname a) "") as [E|E].
    + right. split; [now apply merge_player_invalid|].
      unfold settled. now rewrite F.
    + left. rewrite (merge_player_new _ _ _ F E).
      eexists. split; [reflexivity|]. split; [reflexivity|].
      unfold settled.
      match goal with |- context [find_player_named _ ?s1] =>
        rewrite (find_player_named_snoc _ st
                   (new_player env st (Application.nickname a) (Application.totalWin a))
                   s1 F eq_refl eq_refl)
      end.
      cbn. lia.
Qed.

(** Merging a settled claim writes nothing. *)
Lemma merge_player_settled env a st :
  settled (Application.nickname a) (Application.totalWin a) st ->
  merge_player env a st = Ok tt st \/
  merge_player env a st = Throw ValidationError st.
Proof.
  unfold settled.
  destruct (find_player_named (Application.nickname a) st) as [[j p]|] eqn:F;
    intros H.
  - left. rewrite (merge_player_found _ _ _ _ _ F).
    destruct (Z.gtb_spec (Application.totalWin a) (Player.totalWin p)); [lia|].
    reflexivity.
  - right. now apply merge_player_invalid.
Qed.

(** Approving once: the store afterwards, and the claim settled in it. *)
Lemma approve_settles env id st i a :
  find_application id st = Some (i, a) ->
  exists resp st1,
    patch_applications_id env id (Some "approved") st = Ok resp st1 /\
    applications st1 =
      <[i := Application.set_status "approved" a]> (applications st) /\
    settled (Application.nickname a) (Application.totalWin a) st1.
Proof.
  intros F.
  rewrite (patch_applications_id_found env id "approved" st i a eq_refl F).
  cbv zeta. change ("approved" =? "approved") with true. cbv iota.
  destruct (merge_player_settles env (Application.set_status "approved" a)
              (write_status i a "approved" st))
    as [(st1 & -> & Ha & Hs) | [-> Hs]].
  - eexists _, _. split; [reflexivity|]. split; [exact Ha | exact Hs].
  - eexists _, _. split; [reflexivity|]. split; [reflexivity | exact Hs].
Qed.

(** Approving when the claim is settled leaves the players as they are. *)
Lemma approve_settled env id st i a :
  find_application id st = Some (i, a) ->
  settled (Application.nickname a) (Application.totalWin a) st ->
  exists resp st',
    patch_applications_id env id (Some "approved") st = Ok resp st' /\
    players st' = players st.
Proof.
  intros F Hs.
  rewrite (patch_applications_id_found env id "approved" st i a eq_refl F).
  cbv zeta. change ("approved" =? "approved") with true. cbv iota.
  destruct (merge_player_settled env (Application.set_status "approved" a)
              (write_status i a "approved" st)) as [-> | ->].
  - eapply settled_ext; [|exact Hs]. reflexivity.
  - eexists _, _. split; reflexivity.
  - eexists _, _. split; reflexivity.
Qed.

(** C4. Approving the same application twice in a row: once the first
    approval has gone through, the second one leaves the [Player]
    collection exactly as the first left it.  So no player's total
    decreases, and no second player with the nickname appears. *)
Theorem reapproval_leaves_players env1 h1 u env2 h2 id st :
  authenticated env1 h1 = Some u ->
  exists r1 st1 r2 st2,
    handle env1 (mkRequest h1 (PATCH_applications_id id (Some "approved"))) st
      = Ok r1 st1 /\
    handle env2 (mkRequest h2 (PATCH_applications_id id (Some "approved"))) st1
      = Ok r2 st2 /\
    players st2 = players st1 /\
    (forall j p, players st1 !! j = Some p ->
       exists p', players st2 !! j = Some p' /\
                  (Player.totalWin p <= Player.totalWin p')%Z) /\
    (forall n, length (List.filter (fun p => bool_decide (Player.name p = n)) (players st2))
             = length (List.filter (fun p => bool_decide (Player.name p = n)) (players st1))).
Proof.
  intros A1.
  assert (Hgoal : exists r1 st1 r2 st2,
    handle env1 (mkRequest h1 (PATCH_applications_id id (Some "approved"))) st
      = Ok r1 st1 /\
    handle env2 (mkRequest h2 (PATCH_applications_id id (Some "approved"))) st1
      = Ok r2 st2 /\
    players st2 = players st1).
  { rewrite (handle_review_authenticated _ _ _ _ _ _ A1).
    destruct (find_application id st) as [[i a]|] eqn:F.
    - destruct (approve_settles env1 id st i a F) as (r1 & st1 & -> & Ha & Hs).
      exists r1, st1.
      destruct (authenticated env2 h2) eqn:A2.
      + rewrite (handle_review_authenticated _ _ _ _ _ _ A2).
        pose proof (find_application_write_status _ _ _ _ _ _ F Ha) as F1.
        destruct (approve_settled env2 id st1 _ _ F1 Hs) as (r2 & st2 & -> & Hp).
        exists r2, st2. auto.
      + rewrite (handle_review_unauthenticated _ _ _ _ _ A2).
        eexists _, _. auto.
    - rewrite (patch_applications_id_not_found env1 id "approved" st eq_refl F).
      eexists _, st.
      destruct (authenticated env2 h2) eqn:A2.
      + rewrite (handle_review_authenticated _ _ _ _ _ _ A2).
        rewrite (patch_applications_id_not_found env2 id "approved" st eq_refl F).
        eexists _, _. auto.
      + rewrite (handle_review_unauthenticated _ _ _ _ _ A2).
        eexists _, _. auto. }
  destruct Hgoal as (r1 & st1 & r2 & st2 & H1 & H2 & Hp).
  exists r1, st1, r2, st2. rewrite Hp. repeat split; try assumption.
  intros j p Hj. exists p. split; [exact Hj | lia].
Qed.

Lemma reapproval_leaves_players_witness :
  exists r1 st1 r2 st2,
    handle env0 (mkRequest admin (PATCH_applications_id 0 (Some "approved")))
      st_submitted = Ok r1 st1 /\
    handle env0 (mkRequest admin (PATCH_applications_id 0 (Some "approved")))
      st1 = Ok r2 st2 /\
    players st2 = players st1 /\
    (forall j p, players st1 !! j = Some p ->
       exists p', players st2 !! j = Some p' /\
                  (Player.totalWin p <= Player.totalWin p')%Z) /\
    (forall n, length (List.filter (fun p => bool_decide (Player.name p = n)) (players st2))
             = length (List.filter (fun p => bool_decide (Player.name p = n)) (players st1))).
Proof.
  apply (reapproval_leaves_players env0 admin "admin" env0 admin 0 st_submitted).
  reflexivity.
Defined.

(** ** Frame of the review operation *)

Lemma differs_same {A} (l : list A) k : ~ differs l l k.
Proof. unfold differs. congruence. Qed.

Lemma differs_insert {A} (l : list A) i x k :
  differs l (<[i := x]> l) k -> k = i /\ <[i := x]> l !! k = Some x.
Proof.
  unfold differs. intros H.
  destruct (decide (i = k)) as [<-|Hne].
  - split; [reflexivity|].
    destruct (decide (i < length l)%nat) as [Hlt|Hge].
    + now apply list_lookup_insert_eq.
    + rewrite list_insert_ge in H by lia. congruence.
  - rewrite list_lookup_insert_ne in H by exact Hne. congruence.
Qed.

Lemma differs_snoc {A} (l : list A) x k :
  differs l (l ++ [x])%list k -> k = length l /\ (l ++ [x])%list !! k = Some x.
Proof.
  unfold differs. intros H.
  destruct (decide (k < length l)%nat) as [Hlt|Hge].
  - rewrite lookup_app_l in H by exact Hlt. congruence.
  - destruct (decide (k = length l)) as [->|Hne].
    + split; [reflexivity|]. rewrite lookup_app_r by lia.
      now rewrite Nat.sub_diag.
    + exfalso. apply H.
      rewrite (proj2 (lookup_ge_None l k)) by lia.
      apply lookup_ge_None. rewrite length_app. cbn. lia.
Qed.

Lemma players_frame_same n st st' :
  players st' = players st -> players_frame n st st'.
Proof.
  intros E. split; rewrite E; intros; exfalso; eapply differs_same; eassumption.
Qed.

Lemma players_frame_ext n st0 st st' :
  players st = players st0 -> players_frame n st st' -> players_frame n st0 st'.
Proof. intros E [H1 H2]. split; rewrite <- E; assumption. Qed.

Lemma merge_player_frame env a st :
  exists st', final_store (merge_player env a st) = Some st' /\
              applications st' = applications st /\
              players_frame (Application.nickname a) st st'.
Proof.
  destruct (find_player_named (Application.nickname a) st) as [[j p]|] eqn:F.
  - rewrite (merge_player_found _ _ _ _ _ F).
    eexists. split; [reflexivity|].
    destruct (_ >? _)%Z; [|split; [reflexivity | now apply players_frame_same]].
    split; [reflexivity|]. cbn [players set_players].
    apply list_find_Some in F as (Hj & Hn & _).
    split.
    + intros k [-> Hk]%differs_insert. eexists. split; [exact Hk|].
      split; [exact Hn|]. intros p0 Hp0. rewrite Hj in Hp0.
      injection Hp0 as <-. eauto.
    + intros k1 k2 [-> _]%differs_insert [-> _]%differs_insert. reflexivity.
  - destruct (String.eqb_spec (Application.nickname a) "") as [E|E].
    + rewrite (merge_player_invalid _ _ _ F E).
      eexists. split; [reflexivity|].
      split; [reflexivity | now apply players_frame_same].
    + rewrite (merge_player_new _ _ _ F E).
      eexists. split; [reflexivity|]. split; [reflexivity|].
      cbn [players]. split.
      * intros k [-> Hk]%differs_snoc. eexists. split; [exact Hk|].
        split; [reflexivity|]. intros p0 Hp0.
        apply lookup_lt_Some in Hp0. lia.
      * intros k1 k2 [-> _]%differs_snoc [-> _]%differs_snoc. reflexivity.
Qed.

Lemma review_writes_nothing id status st : review_writes id status st st.
Proof.
  split; try reflexivity; intros; exfalso; eapply differs_same; eassumption.
Qed.

(** C5. One call of the review operation, whoever makes it and whatever
    status it carries, is answered, and writes at most the application found
    under the id (at its position, changing nothing but the status) and at most
    one position of the players, where a player with that application's
    nickname stands afterwards.  Unless the status is approved, the players
    are left exactly as they were; so a rejection creates or modifies none. *)
Theorem review_frame env h id status st :
  exists resp st',
    handle env (mkRequest h (PATCH_applications_id id status)) st = Ok resp st' /\
    review_writes id status st st'.
Proof.
  assert (Hnone : forall resp,
    handle env (mkRequest h (PATCH_applications_id id status)) st = Ok resp st ->
    exists resp st',
      handle env (mkRequest h (PATCH_applications_id id status)) st = Ok resp st' /\
      review_writes id status st st').
  { intros resp H. exists resp, st. split; [exact H | apply review_writes_nothing]. }
  destruct (authenticated env h) as [u|] eqn:A.
  2:{ eapply Hnone. now apply handle_review_unauthenticated. }
  destruct (valid_status status) eqn:V.
  2:{ eapply Hnone. rewrite (handle_review_authenticated _ _ _ _ _ _ A).
      now apply patch_applications_id_invalid. }
  destruct status as [s|]; [|discriminate].
  destruct (find_application id st) as [[i a]|] eqn:F.
  2:{ eapply Hnone. rewrite (handle_review_authenticated _ _ _ _ _ _ A).
      now apply patch_applications_id_not_found. }
  clear Hnone.
  rewrite (handle_review_authenticated _ _ _ _ _ _ A).
  rewrite (patch_applications_id_found _ _ _ _ _ _ V F). cbv zeta.
  set (a' := Application.set_status s a).
  set (st1 := write_status i a s st).
  assert (Happs : forall st', applications st' = applications st1 ->
    (forall k, differs (applications st) (applications st') k ->
       exists a0 s0, Some (i, a) = Some (k, a0) /\
                     applications st' !! k = Some (Application.set_status s0 a0)) /\
    (forall k1 k2,
       differs (applications st) (applications st') k1 ->
       differs (applications st) (applications st') k2 -> k1 = k2) /\
    length (applications st') = length (applications st)).
  { intros st' ->. cbn [applications st1 write_status set_applications].
    split; [|split].
    - intros k [-> Hk]%differs_insert. exists a, s. split; [reflexivity | exact Hk].
    - intros k1 k2 [-> _]%differs_insert [-> _]%differs_insert. reflexivity.
    - apply length_insert. }
  destruct (String.eqb_spec s "approved") as [->|Hs].
  - destruct (merge_player_frame env a' st1) as (st2 & Hfin & Ha & [Hp1 Hp2]).
    assert (Hres : exists resp,
      match merge_player env a' st1 with
      | Ok _ st' => Ok (mkResponse 200 (JApplication a')) st'
      | Throw _ st' =>
          Ok (mkResponse 400 (JMessage "Error updating application")) st'
      | Outside => Outside
      end = Ok resp st2).
    { destruct (merge_player env a' st1); cbn in Hfin; try discriminate;
        injection Hfin as ->; eexists; reflexivity. }
    destruct Hres as [resp ->]. exists resp, st2. split; [reflexivity|].
    destruct (Happs st2 Ha) as (H1 & H2 & H3).
    split; [ | exact H2 | | exact Hp2 | exact H3 | congruence].
    + intros k Hk. rewrite F. exact (H1 k Hk).
    + intros k Hk. destruct (Hp1 k Hk) as (p' & Hk' & Hn & Hw).
      exists i, a, p'. split; [exact F|]. split; [exact Hk'|].
      split; [exact Hn | exact Hw].
  - exists (mkResponse 200 (JApplication a')), st1. split; [reflexivity|].
    destruct (Happs st1 eq_refl) as (H1 & H2 & H3).
    split; [ | exact H2 | | | exact H3 | reflexivity].
    + intros k Hk. rewrite F. exact (H1 k Hk).
    + intros k Hk. exfalso. eapply differs_same. exact Hk.
    + intros k1 k2 Hk. exfalso. eapply differs_same. exact Hk.
Qed.

(** ** Every request is answered *)

Lemma auth_answers env req next st :
  (exists resp st', next st = Ok resp st') ->
  exists resp st', auth env req next st = Ok resp st'.
Proof.
  intros (resp & st' & H).
  destruct (authenticated env (authorization req)) as [u|] eqn:A.
  - unfold authenticated in A. unfold auth, try_catch.
    destruct (truthy_string (bearer_token (authorization req))); [|discriminate].
    cbn [negb]. rewrite A, H. eauto.
  - rewrite (auth_unauthorized _ _ _ _ A). eauto.
Qed.

Lemma patch_applications_id_answers env id status st :
  exists resp st', patch_applications_id env id status st = Ok resp st'.
Proof.
  destruct (valid_status status) eqn:V.
  2:{ rewrite (patch_applications_id_invalid _ _ _ _ V). eauto. }
  destruct status as [s|]; [|discriminate].
  destruct (find_application id st) as [[i a]|] eqn:F.
  - destruct (patch_applications_id_writes env id s st i a V F)
      as (resp & st' & H & _). eauto.
  - rewrite (patch_applications_id_not_found _ _ _ _ V F). eauto.
Qed.

Lemma post_players_answers env name totalWin st :
  exists resp st', post_players env name totalWin st = Ok resp st'.
Proof.
  unfold post_players, Player_create, try_catch, bind.
  destruct name as [n|], totalWin as [w|]; cbn; eauto.
  destruct (n =? ""); cbn; eauto.
Qed.

Lemma patch_players_id_answers id totalWin st :
  exists resp st', patch_players_id id totalWin st = Ok resp st'.
Proof.
  unfold patch_players_id, Player_findByIdAndUpdate, try_catch, bind.
  destruct (list_find _ _) as [[i p]|]; [destruct totalWin|]; cbn; eauto.
Qed.

Lemma delete_players_id_answers id st :
  exists resp st', delete_players_id id st = Ok resp st'.
Proof.
  unfold delete_players_id, Player_findByIdAndDelete, try_catch, bind.
  destruct (list_find _ _) as [[i p]|]; cbn; eauto.
Qed.

(** No exception escapes a route, and the only requests the model leaves
    unanswered are the searches whose pattern lies outside the modelled
    fragment of the pattern language. *)
Lemma handle_answers env req st :
  (exists resp st', handle env req st = Ok resp st') \/
  (exists q, route req = GET_players_search q /\
             regex_compile q = RxUnmodelled /\
             handle env req st = Outside).
Proof.
  destruct req as [h r]. unfold handle. cbn [route].
  destruct r as [b| |id status|name w|id w|id| | | |limit|q|];
    try (left; apply auth_answers).
  - left. destruct (required_fields_present b) eqn:E.
    + rewrite (post_applications_created _ _ _ E). eauto.
    + rewrite (post_applications_missing _ _ _ E). eauto.
  - rewrite get_applications_spec. eauto.
  - apply patch_applications_id_answers.
  - apply post_players_answers.
  - apply patch_players_id_answers.
  - apply delete_players_id_answers.
  - left. rewrite get_players_spec. eauto.
  - left. rewrite get_players_weekly_spec. eauto.
  - left. rewrite get_players_monthly_spec. eauto.
  - left. destruct (get_players_top_spec limit st) as [n ->]. eauto.
  - rewrite get_players_search_spec.
    destruct (regex_compile q) eqn:E; [left; eauto | left; eauto | right; eauto].
  - left. rewrite post_test_create_sample_players_spec. eauto.
Qed.

(** ** The gate on each route *)



(** The public routes do not read the [Authorization] header at all. *)
Lemma public_routes_ignore_token env h h' st r :
  match r with
  | POST_applications _ | GET_players | GET_players_weekly
  | GET_players_monthly | GET_players_top _ | GET_players_search _
  | POST_test_create_sample_players => True
  | _ => False
  end ->
  handle env (mkRequest h r) st = handle env (mkRequest h' r) st.
Proof. destruct r; intros []; reflexivity. Qed.


(** ** The sample-data route *)

(** C7. Whatever the store holds, a request without an [Authorization]
    header to the sample-data route is answered 201; afterwards the
    [Player] collection consists of the five fixed sample players and of
    nothing else, and the applications are as before. *)
Theorem sample_players_route_is_open env st :
  exists st',
    handle env (mkRequest None POST_test_create_sample_players) st
    = Ok (mkResponse 201 (JMessage "Sample players created")) st' /\
    players st' = sample_players env st /\
    applications st' = applications st /\
    map (fun p => (Player.name p, Player.totalWin p)) (players st') = samplePlayers /\
    Forall (fun p => Player.avatar p = defaultAvatar (Player.name p)) (players st').
Proof.
  eexists. split; [apply post_test_create_sample_players_spec|].
  cbn [players applications]. repeat split.
  repeat constructor.
Qed.

(** ** Submitting an application *)

(** C8, on the code.  A submission that carries every required field but
    claims a win of 0 is refused as if a field were missing, and nothing is
    stored. *)
Theorem zero_claim_refused env h st name email phoneNumber nickname accountName proofUrl :
  handle env
    (mkRequest h
       (POST_applications
          (mkSubmission (Some name) (Some email) (Some phoneNumber)
             (Some nickname) (Some accountName) (Some 0%Z) proofUrl)))
    st
  = Ok (mkResponse 400 (JMessage "Required fields are missing")) st.
Proof.
  unfold handle. cbn [route]. apply post_applications_missing.
  unfold required_fields_present. cbn. now rewrite !andb_false_r.
Qed.

(** The submission route in full: 201 and one more pending application when
    every required field is truthy, 400 and no write otherwise. *)
Lemma post_applications_outcome env h b st :
  handle env (mkRequest h (POST_applications b)) st =
    if required_fields_present b
    then Ok (mkResponse 201 (JApplication (submitted_application env st b)))
            (mkStore (players st)
               (applications st ++ [submitted_application env st b])
               (S (nextId st)))
    else Ok (mkResponse 400 (JMessage "Required fields are missing")) st.
Proof.
  unfold handle. cbn [route]. destruct (required_fields_present b) eqn:E.
  - now apply post_applications_created.
  - now apply post_applications_missing.
Qed.

(** ** Direct management of players *)

(** C10. An authenticated caller stores any total it likes: creating a
    player with a non-empty name and total [w] appends exactly that player,
    and updating an existing player sets its total to [w]; no check is made
    on [w].  With a negative [w], the totals in the store are no longer all
    non-negative after either request. *)
Theorem admin_stores_any_total env h u st n w id i p :
  authenticated env h = Some u ->
  n <> "" ->
  list_find (fun p => Player._id p = id) (players st) = Some (i, p) ->
  let created := Player.mk (nextId st) n w (defaultAvatar n) (now env) in
  let st_post := mkStore (players st ++ [created]) (applications st) (S (nextId st)) in
  let st_patch := set_players (<[i := Player.set_totalWin w p]> (players st)) st in
  handle env (mkRequest h (POST_players (Some n) (Some w))) st
    = Ok (mkResponse 201 (JPlayer created)) st_post /\
  handle env (mkRequest h (PATCH_players_id id (Some w))) st
    = Ok (mkResponse 200 (JPlayer (Player.set_totalWin w p))) st_patch /\
  ((w < 0)%Z -> ~ totals_nonneg st_post /\ ~ totals_nonneg st_patch).
Proof.
  intros A Hn F created st_post st_patch. unfold handle. cbn [route].
  split; [|split].
  - erewrite auth_authorized by (cbn; eauto with gate).
    unfold post_players, Player_create, try_catch, bind.
    destruct (String.eqb_spec n ""); [contradiction | reflexivity].
  - erewrite auth_authorized by (cbn; eauto with gate).
    unfold patch_players_id, Player_findByIdAndUpdate, try_catch, bind.
    rewrite F. reflexivity.
  - intros Hw. unfold totals_nonneg. cbn [players st_post st_patch set_players].
    split; intros H.
    + apply Forall_app in H as [_ H]. inversion H as [|? ? H' _].
      cbn in H'. lia.
    + apply list_find_Some in F as (Hi & _).
      assert (Hl : <[i := Player.set_totalWin w p]> (players st) !! i
                   = Some (Player.set_totalWin w p)).
      { apply list_lookup_insert_eq. eapply lookup_lt_Some, Hi. }
      pose proof (Forall_lookup_1 _ _ _ _ H Hl) as H'. cbn in H'. lia.
Qed.

Lemma admin_stores_any_total_witness :
  totals_nonneg st_approved /\
  handle env0 (mkRequest admin (POST_players (Some "Mallory") (Some (-5)%Z)))
    st_approved
  = Ok (mkResponse 201
          (JPlayer (Player.mk 2 "Mallory" (-5) (defaultAvatar "Mallory") 1000)))
       (mkStore
          [Player.mk 1 "AceA" 1000000 (defaultAvatar "AceA") 1000;
           Player.mk 2 "Mallory" (-5) (defaultAvatar "Mallory") 1000]
          [alice_approved] 3) /\
  handle env0 (mkRequest admin (PATCH_players_id 1 (Some (-5)%Z))) st_approved
  = Ok (mkResponse 200
          (JPlayer (Player.mk 1 "AceA" (-5) (defaultAvatar "AceA") 1000)))
       (mkStore [Player.mk 1 "AceA" (-5) (defaultAvatar "AceA") 1000]
          [alice_approved] 2) /\
  ~ totals_nonneg
      (mkStore [Player.mk 1 "AceA" (-5) (defaultAvatar "AceA") 1000]
         [alice_approved] 2).
Proof.
  pose proof (admin_stores_any_total env0 admin "admin" st_approved "Mallory" (-5)
                1 0 (Player.mk 1 "AceA" 1000000 (defaultAvatar "AceA") 1000)
                eq_refl) as H.
  cbv zeta in H.
  destruct H as (Hpost & Hpatch & Hneg); [discriminate | reflexivity |].
  split; [repeat constructor; cbn; lia|].
  split; [exact Hpost|]. split; [exact Hpatch|].
  apply Hneg. reflexivity.
Defined.

(** ** Searching players by name *)

Lemma starts_with_spec sub s :
  starts_with sub s = true <-> exists post, s = (sub ++ post)%list.
Proof.
  revert s. induction sub as [|c sub IH]; intros s; cbn.
  - split; eauto.
  - destruct s as [|d s].
    + split; [discriminate | intros [post [=]]].
    + rewrite andb_true_iff, IH. split.
      * intros [Hc [post ->]]. apply Ascii.eqb_eq in Hc as ->. eauto.
      * intros [post [= -> ->]]. split; [apply Ascii.eqb_refl | eauto].
Qed.

(** [js_includes] is the substring relation. *)
Lemma js_includes_spec s sub :
  js_includes s sub = true <-> exists pre post, s = (pre ++ sub ++ post)%list.
Proof.
  induction s as [|d s IH]; cbn; rewrite orb_true_iff, starts_with_spec.
  - split.
    + intros [[post H]|H]; [exists [], post; exact H | discriminate].
    + intros (pre & post & H). left.
      destruct pre; [cbn in H; eauto | discriminate].
  - rewrite IH. split.
    + intros [[post H]|(pre & post & ->)].
      * exists [], post. exact H.
      * exists (d :: pre), post. reflexivity.
    + intros (pre & post & H). destruct pre as [|e pre]; cbn in H.
      * left. eauto.
      * right. injection H as -> ->. eauto.
Qed.

Lemma is_ordinary_not_dot c : is_ordinary c = true -> Ascii.eqb c "."%char = false.
Proof.
  destruct (Ascii.eqb_spec c "."%char) as [->|]; [|reflexivity].
  vm_compute. discriminate.
Qed.

Lemma rx_match_here_literal q s :
  forallb is_ordinary q = true ->
  rx_match_here (map rx_atom_of q) s
  = starts_with (toLowerCase q) (toLowerCase s).
Proof.
  revert s. induction q as [|c q IH]; intros s Hq; [reflexivity|].
  cbn in Hq. apply andb_true_iff in Hq as [Hc Hq].
  destruct s as [|d s]; [reflexivity|]. cbn.
  unfold rx_atom_of. rewrite (is_ordinary_not_dot _ Hc). cbn.
  now rewrite IH.
Qed.

Lemma rx_search_literal q s :
  forallb is_ordinary q = true ->
  rx_search (map rx_atom_of q) s
  = js_includes (toLowerCase s) (toLowerCase q).
Proof.
  intros Hq. induction s as [|d s IH]; cbn [rx_search js_includes toLowerCase map].
  - now rewrite rx_match_here_literal.
  - rewrite rx_match_here_literal by exact Hq. now rewrite IH.
Qed.

Lemma regex_compile_literal q :
  forallb is_ordinary (list_ascii_of_string q) = true ->
  regex_compile q = RxOk (map rx_atom_of (list_ascii_of_string q)).
Proof.
  intros Hq. unfold regex_compile.
  replace (forallb _ (list_ascii_of_string q)) with true; [reflexivity|].
  symmetry. rewrite forallb_forall in *. intros c Hc.
  now rewrite (Hq c Hc).
Qed.

#[global] Instance by_totalWin_desc_total : Total by_totalWin_desc.
Proof. intros p q. unfold by_totalWin_desc. lia. Qed.

Lemma sort_totalWin_desc_sorted l : Sorted by_totalWin_desc (sort_totalWin_desc l).
Proof. apply Sorted_merge_sort; apply _. Qed.

Lemma sort_totalWin_desc_perm l : sort_totalWin_desc l ≡ₚ l.
Proof. apply merge_sort_Permutation. Qed.

(** Where the server's search and the literal test agree: on queries made
    of ordinary characters only, the route returns the players whose name
    includes the query up to case, by descending total. *)
Lemma search_literal_query env h q st :
  forallb is_ordinary (list_ascii_of_string q) = true ->
  exists ps,
    handle env (mkRequest h (GET_players_search q)) st
    = Ok (mkResponse 200 (JPlayers ps)) st /\
    ps ≡ₚ List.filter (fun p => name_includes q (Player.name p)) (players st) /\
    Sorted by_totalWin_desc ps.
Proof.
  intros Hq. unfold handle. cbn [route].
  rewrite get_players_search_spec, (regex_compile_literal _ Hq).
  eexists. split; [reflexivity|]. split; [|apply sort_totalWin_desc_sorted].
  rewrite sort_totalWin_desc_perm.
  erewrite filter_ext; [reflexivity|].
  intros p. unfold regex_test, name_includes. now apply rx_search_literal.
Qed.

(** C9, on the code.  The query is handed to [$regex] as a pattern, not as
    a literal: searching for ["."] returns the player AceA, whose name
    includes no dot, and searching for ["("] ends in the server error
    instead of a list. *)
Theorem search_query_is_a_pattern :
  handle env0 (mkRequest None (GET_players_search ".")) st_approved
  = Ok (mkResponse 200
          (JPlayers [Player.mk 1 "AceA" 1000000 (defaultAvatar "AceA") 1000]))
       st_approved /\
  name_includes "." "AceA" = false /\
  handle env0 (mkRequest None (GET_players_search "(")) st_approved
  = Ok (mkResponse 500 (JMessage "Error searching players")) st_approved.
Proof. repeat split; reflexivity. Qed.

(** * Further properties of the server *)

(** ** The player routes, in full *)

Lemma post_players_spec env name totalWin st :
  post_players env name totalWin st =
    match name, totalWin with
    | Some n, Some w =>
        if n =? ""
        then Ok (mkResponse 400 (JMessage "Error creating player")) st
        else Ok (mkResponse 201 (JPlayer (created_player env st n w)))
                (mkStore (players st ++ [created_player env st n w])
                   (applications st) (S (nextId st)))
    | _, _ => Ok (mkResponse 400 (JMessage "Error creating player")) st
    end.
Proof.
  unfold post_players, Player_create, try_catch, bind.
  destruct name as [n|], totalWin as [w|]; try reflexivity.
  destruct (n =? ""); reflexivity.
Qed.

Lemma patch_players_id_spec id totalWin st :
  patch_players_id id totalWin st =
    match find_player id st with
    | Some (i, p) =>
        match totalWin with
        | Some w =>
            Ok (mkResponse 200 (JPlayer (Player.set_totalWin w p)))
               (set_players (<[i := Player.set_totalWin w p]> (players st)) st)
        | None => Ok (mkResponse 200 (JPlayer p)) st
        end
    | None => Ok (mkResponse 404 (JMessage "Player not found")) st
    end.
Proof.
  unfold patch_players_id, Player_findByIdAndUpdate, find_player, try_catch, bind.
  destruct (list_find _ _) as [[i p]|]; [destruct totalWin|]; reflexivity.
Qed.

Lemma delete_players_id_spec id st :
  delete_players_id id st =
    match find_player id st with
    | Some (i, p) => Ok (mkResponse 204 JNone) (set_players (delete i (players st)) st)
    | None => Ok (mkResponse 404 (JMessage "Player not found")) st
    end.
Proof.
  unfold delete_players_id, Player_findByIdAndDelete, find_player, try_catch, bind.
  destruct (list_find _ _) as [[i p]|]; reflexivity.
Qed.

(** A protected route for a caller with a principal is the handler behind
    the gate. *)
Lemma handle_authenticated env h u r st :
  authenticated env h = Some u ->
  handle env (mkRequest h r) st =
    match r with
    | POST_applications b => post_applications env b st
    | GET_applications => get_applications st
    | PATCH_applications_id id status => patch_applications_id env id status st
    | POST_players name totalWin => post_players env name totalWin st
    | PATCH_players_id id totalWin => patch_players_id id totalWin st
    | DELETE_players_id id => delete_players_id id st
    | GET_players => get_players st
    | GET_players_weekly => get_players_weekly env st
    | GET_players_monthly => get_players_monthly env st
    | GET_players_top limit => get_players_top limit st
    | GET_players_search q => get_players_search q st
    | POST_test_create_sample_players => post_test_create_sample_players env st
    end.
Proof.
  intros A. unfold handle. cbn [route].
  destruct r; try reflexivity;
    (eapply auth_authorized; [exact A | auto with gate]).
Qed.

Lemma handle_unauthenticated env h r st :
  authenticated env h = None ->
  handle env (mkRequest h r) st =
    match r with
    | GET_applications | PATCH_applications_id _ _ | POST_players _ _
    | PATCH_players_id _ _ | DELETE_players_id _ =>
        Ok unauthorized st
    | POST_applications b => post_applications env b st
    | GET_players => get_players st
    | GET_players_weekly => get_players_weekly env st
    | GET_players_monthly => get_players_monthly env st
    | GET_players_top limit => get_players_top limit st
    | GET_players_search q => get_players_search q st
    | POST_test_create_sample_players => post_test_create_sample_players env st
    end.
Proof.
  intros A. unfold handle. cbn [route].
  destruct r; try reflexivity; now apply auth_unauthorized.
Qed.

(** ** What one request can change *)

(** The applications change in two ways only: a complete submission appends
    one, a valid review rewrites the status of the one it finds. *)
Lemma handle_applications_change env req st resp st' :
  handle env req st = Ok resp st' ->
  applications st' = applications st
  \/ (exists b, route req = POST_applications b /\
                required_fields_present b = true /\
                applications st' =
                  (applications st ++ [submitted_application env st b])%list)
  \/ (exists id s i a,
        route req = PATCH_applications_id id (Some s) /\
        valid_status (Some s) = true /\
        find_application id st = Some (i, a) /\
        applications st' = <[i := Application.set_status s a]> (applications st)).
Proof.
  destruct req as [h r]. cbn [route].
  destruct (authenticated env h) as [u|] eqn:A;
    [rewrite (handle_authenticated _ _ _ _ _ A)
    |rewrite (handle_unauthenticated _ _ _ _ A)];
    destruct r as [b| |id status|name w|id w|id| | | |limit|q|];
    try (intros [= <- <-]; left; reflexivity);
    try (rewrite ?get_applications_spec, ?get_players_spec, ?get_players_weekly_spec,
           ?get_players_monthly_spec, ?post_test_create_sample_players_spec;
         intros [= <- <-]; left; reflexivity);
    try (destruct (get_players_top_spec limit st) as [n ->];
         intros [= <- <-]; left; reflexivity);
    try (rewrite get_players_search_spec; destruct (regex_compile q);
         try discriminate; intros [= <- <-]; left; reflexivity);
    try (intros H; apply post_players_frame in H as [_ H]; left; exact H);
    try (intros H; apply patch_players_id_frame in H as [_ H]; left; exact H);
    try (intros H; apply delete_players_id_frame in H as [_ H]; left; exact H);
    try (destruct (required_fields_present b) eqn:E;
         [ rewrite (post_applications_created _ _ _ E); intros [= <- <-];
           right; left; exists b; auto
         | rewrite (post_applications_missing _ _ _ E); intros [= <- <-];
           left; reflexivity ]).
  destruct (valid_status status) eqn:V.
  2:{ rewrite (patch_applications_id_invalid _ _ _ _ V). intros [= <- <-]. now left. }
  destruct status as [s|]; [|discriminate].
  destruct (find_application id st) as [[i a]|] eqn:F.
  2:{ rewrite (patch_applications_id_not_found _ _ _ _ V F). intros [= <- <-]. now left. }
  destruct (patch_applications_id_writes env id s st i a V F) as (r' & st2 & -> & E).
  intros [= <- <-]. right. right. exists id, s, i, a. auto.
Qed.

(** The merge as a change of the players. *)
Lemma merge_player_change env a st :
  exists st', final_store (merge_player env a st) = Some st' /\
              players_change env st st'.
Proof.
  destruct (find_player_named (Application.nickname a) st) as [[j p]|] eqn:F.
  - rewrite (merge_player_found _ _ _ _ _ F). eexists. split; [reflexivity|].
    apply list_find_Some in F as (Hj & _).
    destruct (_ >? _)%Z.
    + eapply players_total; [exact Hj | reflexivity | cbn; lia].
    + now apply players_kept.
  - destruct (String.eqb_spec (Application.nickname a) "") as [E|E].
    + rewrite (merge_player_invalid _ _ _ F E). eexists. split; [reflexivity|].
      now apply players_kept.
    + rewrite (merge_player_new _ _ _ F E). eexists. split; [reflexivity|].
      eapply players_added; cbn; [reflexivity | reflexivity | lia].
Qed.

Lemma players_change_ext env st0 st st' :
  players st = players st0 -> nextId st = nextId st0 ->
  players_change env st st' -> players_change env st0 st'.
Proof.
  intros Ep En H.
  destruct H as [E Hn | p E Hid Hn | i p w Hi E Hn | i p Hi E Hn | E Hn];
    rewrite ?Ep, ?En in *.
  - now apply players_kept.
  - now apply players_added with p.
  - now apply players_total with i p w.
  - now apply players_deleted with i p.
  - apply players_sampled; [|exact Hn].
    rewrite E. unfold sample_players. now rewrite En.
Qed.

Lemma patch_applications_id_players env id status st resp st' :
  patch_applications_id env id status st = Ok resp st' ->
  players_change env st st'.
Proof.
  destruct (valid_status status) eqn:V.
  2:{ rewrite (patch_applications_id_invalid _ _ _ _ V). intros [= <- <-].
      now apply players_kept. }
  destruct status as [s|]; [|discriminate].
  destruct (find_application id st) as [[i a]|] eqn:F.
  2:{ rewrite (patch_applications_id_not_found _ _ _ _ V F). intros [= <- <-].
      now apply players_kept. }
  rewrite (patch_applications_id_found _ _ _ _ _ _ V F). cbv zeta.
  destruct (s =? "approved").
  - destruct (merge_player_change env (Application.set_status s a)
                (write_status i a s st)) as (st2 & Hfin & Hch).
    intros H.
    assert (st' = st2) as ->.
    { destruct (merge_player env _ _); cbn in Hfin; try discriminate;
        injection Hfin as ->; now injection H as _ ->. }
    eapply players_change_ext; [| |exact Hch]; reflexivity.
  - intros [= <- <-]. now apply players_kept.
Qed.

(** The players change in five ways only. *)
Lemma handle_players_change env req st resp st' :
  handle env req st = Ok resp st' -> players_change env st st'.
Proof.
  destruct req as [h r].
  destruct (authenticated env h) as [u|] eqn:A;
    [rewrite (handle_authenticated _ _ _ _ _ A)
    |rewrite (handle_unauthenticated _ _ _ _ A)];
    destruct r as [b| |id status|name w|id w|id| | | |limit|q|];
    try (intros [= <- <-]; now apply players_kept);
    try (rewrite ?get_applications_spec, ?get_players_spec, ?get_players_weekly_spec,
           ?get_players_monthly_spec;
         intros [= <- <-]; now apply players_kept);
    try (destruct (get_players_top_spec limit st) as [n ->];
         intros [= <- <-]; now apply players_kept);
    try (rewrite get_players_search_spec; destruct (regex_compile q);
         try discriminate; intros [= <- <-]; now apply players_kept);
    try (rewrite post_test_create_sample_players_spec; intros [= <- <-];
         now apply players_sampled);
    try (intros H; apply post_applications_step in H as (Hn & Hp & _);
         now apply players_kept);
    try (apply patch_applications_id_players).
  - rewrite post_players_spec.
    destruct name as [n|], w as [w|];
      try (intros [= <- <-]; now apply players_kept).
    destruct (n =? ""); intros [= <- <-]; [now apply players_kept|].
    eapply players_added; cbn; [reflexivity | reflexivity | lia].
  - rewrite patch_players_id_spec.
    destruct (find_player id st) as [[i p]|] eqn:F;
      [|intros [= <- <-]; now apply players_kept].
    apply list_find_Some in F as (Hi & _).
    destruct w as [w|]; intros [= <- <-]; [|now apply players_kept].
    eapply players_total; [exact Hi | reflexivity | cbn; lia].
  - rewrite delete_players_id_spec.
    destruct (find_player id st) as [[i p]|] eqn:F;
      [|intros [= <- <-]; now apply players_kept].
    apply list_find_Some in F as (Hi & _). intros [= <- <-].
    eapply players_deleted; [exact Hi | reflexivity | cbn; lia].
Qed.

(** ** Invariants of the stored documents *)





(** X2. No request deletes or reorders applications, and none rewrites
    anything but a status: an application stored at some position is still
    there after any request, with at most its status changed. *)
Theorem applications_persist env req st resp st' :
  handle env req st = Ok resp st' ->
  forall k a, applications st !! k = Some a ->
    exists s, applications st' !! k = Some (Application.set_status s a).
Proof.
  intros Hstep k a Hk.
  assert (Hid : Application.set_status (Application.status a) a = a)
    by (destruct a; reflexivity).
  apply handle_applications_change in Hstep
    as [E | [(b & _ & _ & E) | (id & s & i & a0 & _ & _ & F & E)]]; rewrite E.
  - exists (Application.status a). now rewrite Hid.
  - exists (Application.status a). rewrite Hid.
    rewrite lookup_app_l; [exact Hk | eapply lookup_lt_Some, Hk].
  - apply list_find_Some in F as (Hi & _).
    destruct (decide (i = k)) as [->|Hne].
    + rewrite Hk in Hi. injection Hi as <-. exists s.
      apply list_lookup_insert_eq. eapply lookup_lt_Some, Hk.
    + exists (Application.status a). rewrite Hid.
      now rewrite list_lookup_insert_ne.
Qed.

Lemma applications_persist_witness :
  exists s, applications st_approved !! 0%nat
            = Some (Application.set_status s alice_pending).
Proof.
  apply (applications_persist env0
           (mkRequest admin (PATCH_applications_id 0 (Some "approved")))
           st_submitted (mkResponse 200 (JApplication alice_approved))
           st_approved eq_refl 0%nat alice_pending).
  reflexivity.
Defined.

Lemma sample_players_inv env st :
  NoDup (Player._id <$> sample_players env st) /\
  Forall (fun p => (Player._id p < 5 + nextId st)%nat) (sample_players env st).
Proof.
  split.
  - cbn. repeat (apply NoDup_cons_2;
      [rewrite ?not_elem_of_cons; repeat split; try lia; apply not_elem_of_nil|]).
    apply NoDup_nil_2.
  - repeat constructor; cbn; lia.
Qed.

Lemma players_inv_step env st st' :
  players_change env st st' -> players_inv st -> players_inv st'.
Proof.
  intros H [I1 I2].
  destruct H as [E Hn | p E Hid Hn | i p w Hi E Hn | i p Hi E Hn | E Hn].
  - split; rewrite E; [exact I1|].
    eapply Forall_impl; [exact I2 | cbn; intros; lia].
  - split; rewrite E.
    + rewrite fmap_app. apply NoDup_app. split; [exact I1|]. split.
      * intros x Hx Hx'. cbn in Hx'. apply list_elem_of_singleton in Hx'. subst x.
        apply list_elem_of_fmap in Hx as (y & Hy & Hin).
        rewrite Forall_forall in I2. apply I2 in Hin. lia.
      * cbn. apply NoDup_singleton.
    + apply Forall_app. split.
      * eapply Forall_impl; [exact I2 | cbn; intros; lia].
      * repeat constructor. lia.
  - assert (Hfm : Player._id <$> <[i := Player.set_totalWin w p]> (players st)
                  = Player._id <$> players st).
    { rewrite list_fmap_insert. apply list_insert_id.
      rewrite list_lookup_fmap, Hi. reflexivity. }
    split; rewrite E.
    + now rewrite Hfm.
    + apply Forall_insert.
      * eapply Forall_impl; [exact I2 | cbn; intros; lia].
      * cbn. pose proof (Forall_lookup_1 _ _ _ _ I2 Hi) as H. cbn in H. lia.
  - split; rewrite E.
    + rewrite list_fmap_delete. eapply sublist_NoDup; [exact I1 | apply sublist_delete].
    + apply Forall_delete. eapply Forall_impl; [exact I2 | cbn; intros; lia].
  - destruct (sample_players_inv env st) as [S1 S2].
    split; rewrite E; [exact S1|]. now rewrite Hn.
Qed.

Lemma reachable_players_inv st : reachable st -> players_inv st.
Proof.
  induction 1 as [|env req st resp st' _ IH Hstep].
  - split; cbn; constructor.
  - eapply players_inv_step; [|exact IH]. eapply handle_players_change, Hstep.
Qed.

(** ** Managing players directly *)

Lemma find_player_deleted st i p id :
  players_inv st -> find_player id st = Some (i, p) ->
  list_find (fun q => Player._id q = id) (delete i (players st)) = None.
Proof.
  intros [Hnd _] F. apply list_find_Some in F as (Hi & Hid & _).
  apply list_find_None, Forall_forall. intros q Hq Hqid.
  apply list_elem_of_lookup_1 in Hq as [k Hk].
  assert (Hk' : exists k', k' <> i /\ players st !! k' = Some q).
  { destruct (decide (k < i)%nat).
    - exists k. split; [lia|]. now rewrite list_lookup_delete_lt in Hk.
    - exists (S k). split; [lia|]. now rewrite list_lookup_delete_ge in Hk by lia. }
  destruct Hk' as (k' & Hne & Hk'). apply Hne.
  apply (NoDup_lookup _ k' i id Hnd); rewrite list_lookup_fmap;
    [rewrite Hk' | rewrite Hi]; cbn; congruence.
Qed.

Lemma elem_of_delete_other {A} (l : list A) i x y :
  l !! i = Some x -> y ∈ l -> y <> x -> y ∈ delete i l.
Proof.
  intros Hi Hy Hne. apply list_elem_of_lookup_1 in Hy as [k Hk].
  assert (k <> i) by (intros ->; congruence).
  destruct (decide (k < i)%nat).
  - apply list_elem_of_lookup_2 with k. now rewrite list_lookup_delete_lt.
  - apply list_elem_of_lookup_2 with (k - 1)%nat.
    rewrite list_lookup_delete_ge by lia. now replace (S (k - 1)) with k by lia.
Qed.

(** X3. Deleting a player: for an authenticated caller and an id some player
    has, the answer is 204, that player and only that player leaves the
    collection, the applications are untouched, and the id is gone for good:
    deleting it again is answered 404 and changes nothing. *)
Theorem delete_player_removes env h u st id i p :
  reachable st ->
  authenticated env h = Some u ->
  find_player id st = Some (i, p) ->
  exists st',
    handle env (mkRequest h (DELETE_players_id id)) st
      = Ok (mkResponse 204 JNone) st' /\
    players st' = delete i (players st) /\
    applications st' = applications st /\
    find_player id st' = None /\
    (forall q, q ∈ players st -> Player._id q <> id -> q ∈ players st') /\
    (forall q, q ∈ players st' -> q ∈ players st) /\
    handle env (mkRequest h (DELETE_players_id id)) st'
      = Ok (mkResponse 404 (JMessage "Player not found")) st'.
Proof.
  intros Hreach A F. pose proof (reachable_players_inv _ Hreach) as Hinv.
  rewrite (handle_authenticated _ _ _ _ _ A), delete_players_id_spec, F.
  eexists. split; [reflexivity|]. cbn [players applications set_players].
  assert (Hgone : find_player id (set_players (delete i (players st)) st) = None)
    by exact (find_player_deleted _ _ _ _ Hinv F).
  split; [reflexivity|]. split; [reflexivity|]. split; [exact Hgone|].
  apply list_find_Some in F as (Hi & Hid & _).
  split; [|split].
  - intros q Hq Hne. eapply elem_of_delete_other; [exact Hi | exact Hq | congruence].
  - intros q. apply list_elem_of_delete_inv.
  - rewrite (handle_authenticated _ _ _ _ _ A), delete_players_id_spec, Hgone.
    reflexivity.
Qed.

Lemma delete_player_removes_witness :
  exists st',
    handle env0 (mkRequest admin (DELETE_players_id 1)) st_approved
      = Ok (mkResponse 204 JNone) st' /\
    players st' = [] /\
    handle env0 (mkRequest admin (DELETE_players_id 1)) st'
      = Ok (mkResponse 404 (JMessage "Player not found")) st'.
Proof.
  destruct (delete_player_removes env0 admin "admin" st_approved 1 0
              (Player.mk 1 "AceA" 1000000 (defaultAvatar "AceA") 1000)
              st_approved_reachable eq_refl eq_refl)
    as (st' & H1 & H2 & _ & _ & _ & _ & H3).
  exists st'. split; [exact H1|]. split; [exact H2 | exact H3].
Defined.



(** X5. Creating a player is accepted exactly when the body carries a
    non-empty name and a total, the total 0 included; the new player then
    stands last in the collection with the default avatar of its name.
    Otherwise the answer is 400 and nothing is written. *)
Theorem create_player_validation env h u st name totalWin :
  authenticated env h = Some u ->
  exists resp st',
    handle env (mkRequest h (POST_players name totalWin)) st = Ok resp st' /\
    (statusCode resp = 201%nat <->
       exists n w, name = Some n /\ n <> "" /\ totalWin = Some w) /\
    (forall n w, name = Some n -> n <> "" -> totalWin = Some w ->
       players st' = (players st ++ [created_player env st n w])%list /\
       applications st' = applications st) /\
    (statusCode resp <> 201%nat ->
       resp = mkResponse 400 (JMessage "Error creating player") /\ st' = st).
Proof.
  intros A. rewrite (handle_authenticated _ _ _ _ _ A), post_players_spec.
  destruct name as [n|], totalWin as [w|];
    try (eexists _, _; split; [reflexivity|]; cbn; split; [|split];
         [ split; [discriminate | intros (? & ? & ? & ? & ?); discriminate]
         | intros; discriminate
         | auto ]).
  destruct (String.eqb_spec n "") as [->|Hn].
  - eexists _, _. split; [reflexivity|]. cbn. split; [|split].
    + split; [discriminate | intros (? & ? & [= <-] & ? & ?); contradiction].
    + intros ? ? [= <-] ?. contradiction.
    + auto.
  - eexists _, _. split; [reflexivity|]. cbn. split; [|split].
    + split; [eauto | reflexivity].
    + intros ? ? [= <-] _ [= <-]. split; reflexivity.
    + intros H. contradiction.
Qed.

Lemma create_player_validation_witness :
  exists resp st',
    handle env0 (mkRequest admin (POST_players (Some "Zed") (Some 0%Z))) st_approved
      = Ok resp st' /\
    statusCode resp = 201%nat /\
    players st' = (players st_approved ++ [created_player env0 st_approved "Zed" 0])%list.
Proof.
  destruct (create_player_validation env0 admin "admin" st_approved
              (Some "Zed") (Some 0%Z) eq_refl)
    as (resp & st' & H & Hiff & Hok & _).
  exists resp, st'. split; [exact H|]. split.
  - apply Hiff. exists "Zed", 0%Z. repeat split. discriminate.
  - apply (Hok "Zed" 0%Z); [reflexivity | discriminate | reflexivity].
Defined.

(** ** The listings *)

#[global] Instance by_totalWin_desc_trans : Transitive by_totalWin_desc.
Proof. intros p q r. unfold by_totalWin_desc. lia. Qed.

#[global] Instance by_createdAt_desc_total : Total by_createdAt_desc.
Proof. intros a b. unfold by_createdAt_desc. lia. Qed.

#[global] Instance by_createdAt_desc_trans : Transitive by_createdAt_desc.
Proof. intros a b c. unfold by_createdAt_desc. lia. Qed.

Lemma sort_totalWin_desc_strongly l :
  StronglySorted by_totalWin_desc (sort_totalWin_desc l).
Proof. apply StronglySorted_merge_sort; apply _. Qed.

(** X6. The leaderboard: [GET /players], with or without a token, returns
    every player exactly once, each one before all those with a smaller
    total, and writes nothing. *)
Theorem leaderboard_is_ranked env h st :
  exists ps,
    handle env (mkRequest h GET_players) st
      = Ok (mkResponse 200 (JPlayers ps)) st /\
    ps ≡ₚ players st /\
    StronglySorted by_totalWin_desc ps /\
    (forall i j p q, (i < j)%nat -> ps !! i = Some p -> ps !! j = Some q ->
       (Player.totalWin q <= Player.totalWin p)%Z).
Proof.
  unfold handle. cbn [route]. rewrite get_players_spec, filter_true.
  eexists. split; [reflexivity|]. split; [apply sort_totalWin_desc_perm|].
  pose proof (sort_totalWin_desc_strongly (players st)) as Hs.
  split; [exact Hs|].
  intros i j p q Hij Hi Hj.
  rewrite <- (take_drop j (sort_totalWin_desc (players st))) in Hs.
  eapply (StronglySorted_app_1_elem_of _ _ _ p q Hs).
  - apply elem_of_take. exists i. split; [exact Hi | exact Hij].
  - apply list_elem_of_lookup_2 with 0%nat.
    rewrite lookup_drop, Nat.add_0_r. exact Hj.
Qed.

(** X7. The top list: [GET /players/top] returns the first [limit] players
    of the ranking, 10 of them when [limit] is absent, not a number or 0,
    and all of them when there are fewer.  Every player it leaves out has a
    total no greater than any player it returns. *)
Theorem top_players_are_the_best env h limit st :
  exists ps rest,
    handle env (mkRequest h (GET_players_top limit)) st
      = Ok (mkResponse 200 (JPlayers ps)) st /\
    players st ≡ₚ (ps ++ rest)%list /\
    length ps = Nat.min (effective_limit limit) (length (players st)) /\
    StronglySorted by_totalWin_desc ps /\
    (forall p q, p ∈ ps -> q ∈ rest ->
       (Player.totalWin q <= Player.totalWin p)%Z).
Proof.
  unfold handle. cbn [route].
  exists (take (effective_limit limit) (sort_totalWin_desc (players st))),
         (drop (effective_limit limit) (sort_totalWin_desc (players st))).
  split.
  { unfold get_players_top, Player_find_sorted, try_catch, bind, json, ret.
    rewrite filter_true. reflexivity. }
  pose proof (sort_totalWin_desc_strongly (players st)) as Hs.
  rewrite <- (take_drop (effective_limit limit) (sort_totalWin_desc (players st))) in Hs.
  split; [|split; [|split]].
  - rewrite take_drop. symmetry. apply sort_totalWin_desc_perm.
  - rewrite length_take. now rewrite (sort_totalWin_desc_perm (players st)).
  - eapply StronglySorted_app_1_l, Hs.
  - intros p q Hp Hq. exact (StronglySorted_app_1_elem_of _ _ _ p q Hs Hp Hq).
Qed.


(** X9. The administrator's list: [GET /applications] with a valid token
    returns every stored application exactly once, newest first, and writes
    nothing. *)
Theorem applications_newest_first env h u st :
  authenticated env h = Some u ->
  exists apps,
    handle env (mkRequest h GET_applications) st
      = Ok (mkResponse 200 (JApplications apps)) st /\
    apps ≡ₚ applications st /\
    StronglySorted by_createdAt_desc apps.
Proof.
  intros A. rewrite (handle_authenticated _ _ _ _ _ A), get_applications_spec.
  eexists. split; [reflexivity|]. split.
  - apply merge_sort_Permutation.
  - apply StronglySorted_merge_sort; apply _.
Qed.

Lemma applications_newest_first_witness :
  exists apps,
    handle env0 (mkRequest admin GET_applications) st_approved
      = Ok (mkResponse 200 (JApplications apps)) st_approved /\
    apps ≡ₚ applications st_approved /\
    StronglySorted by_createdAt_desc apps.
Proof. apply (applications_newest_first env0 admin "admin" st_approved eq_refl). Defined.

(** ** More on the review workflow *)

Lemma merge_player_keeps env a st :
  exists st', final_store (merge_player env a st) = Some st' /\
              keeps_players st st' /\ applications st' = applications st.
Proof.
  assert (Hrefl : forall s, keeps_players s s).
  { intros s k p Hk. exists (Player.totalWin p). split; [lia|].
    now rewrite set_totalWin_same. }
  destruct (find_player_named (Application.nickname a) st) as [[j p]|] eqn:F.
  - rewrite (merge_player_found _ _ _ _ _ F). eexists. split; [reflexivity|].
    apply list_find_Some in F as (Hj & _).
    destruct (Z.gtb_spec (Application.totalWin a) (Player.totalWin p));
      [|split; [apply Hrefl | reflexivity]].
    split; [|reflexivity]. intros k q Hk. cbn [players set_players].
    destruct (decide (j = k)) as [<-|Hne].
    + rewrite Hj in Hk. injection Hk as <-.
      exists (Application.totalWin a). split; [lia|].
      apply list_lookup_insert_eq. eapply lookup_lt_Some, Hj.
    + exists (Player.totalWin q). split; [lia|].
      rewrite set_totalWin_same. now rewrite list_lookup_insert_ne.
  - destruct (String.eqb_spec (Application.nickname a) "") as [E|E].
    + rewrite (merge_player_invalid _ _ _ F E). eexists. split; [reflexivity|].
      split; [apply Hrefl | reflexivity].
    + rewrite (merge_player_new _ _ _ F E). eexists. split; [reflexivity|].
      split; [|reflexivity]. intros k q Hk. cbn [players].
      exists (Player.totalWin q). split; [lia|]. rewrite set_totalWin_same.
      rewrite lookup_app_l; [exact Hk | eapply lookup_lt_Some, Hk].
Qed.

(** X10. A review never removes a player and never lowers a total: whatever
    the caller, the id and the status value, each player is afterwards where
    it was, unchanged but for a total that may have grown. *)
Theorem review_never_lowers env h id status st :
  exists resp st',
    handle env (mkRequest h (PATCH_applications_id id status)) st = Ok resp st' /\
    keeps_players st st'.
Proof.
  assert (Hrefl : forall s, keeps_players s s).
  { intros s k p Hk. exists (Player.totalWin p). split; [lia|].
    now rewrite set_totalWin_same. }
  destruct (authenticated env h) as [u|] eqn:A.
  2:{ rewrite (handle_unauthenticated _ _ _ _ A). eauto. }
  rewrite (handle_authenticated _ _ _ _ _ A).
  destruct (valid_status status) eqn:V.
  2:{ rewrite (patch_applications_id_invalid _ _ _ _ V). eauto. }
  destruct status as [s|]; [|discriminate].
  destruct (find_application id st) as [[i a]|] eqn:F.
  2:{ rewrite (patch_applications_id_not_found _ _ _ _ V F). eauto. }
  rewrite (patch_applications_id_found _ _ _ _ _ _ V F). cbv zeta.
  destruct (s =? "approved").
  - destruct (merge_player_keeps env (Application.set_status s a)
                (write_status i a s st)) as (st2 & Hfin & Hk & _).
    destruct (merge_player env _ _); cbn in Hfin; try discriminate;
      injection Hfin as ->; eexists _, _; (split; [reflexivity | exact Hk]).
  - eexists _, _. split; [reflexivity|]. exact (Hrefl st).
Qed.

Lemma list_find_insert_irrelevant {A} (P : A -> Prop) `{forall x, Decision (P x)}
    (l : list A) i x :
  (forall y, l !! i = Some y -> ~ P y) -> ~ P x ->
  list_find P (<[i := x]> l) = list_find P l.
Proof.
  revert i. induction l as [|z l IH]; intros i Hy Hx; [reflexivity|].
  destruct i as [|i]; cbn.
  - rewrite decide_False by exact Hx.
    rewrite decide_False by (apply Hy; reflexivity). reflexivity.
  - destruct (decide (P z)); [reflexivity|].
    rewrite IH; [reflexivity | | exact Hx]. intros y Hl. apply Hy. exact Hl.
Qed.

Lemma list_find_snoc_irrelevant {A} (P : A -> Prop) `{forall x, Decision (P x)}
    (l : list A) x :
  ~ P x -> list_find P (l ++ [x]) = list_find P l.
Proof.
  intros Hx. induction l as [|z l IH]; cbn.
  - now rewrite decide_False.
  - destruct (decide (P z)); [reflexivity | now rewrite IH].
Qed.

(** An approval, seen from the totals recorded per nickname. *)
Lemma approve_recorded_total env id st i a :
  find_application id st = Some (i, a) ->
  Application.nickname a <> "" ->
  exists st',
    patch_applications_id env id (Some "approved") st
      = Ok (mkResponse 200 (JApplication (Application.set_status "approved" a))) st' /\
    applications st' =
      <[i := Application.set_status "approved" a]> (applications st) /\
    recorded_total (Application.nickname a) st' =
      Some (match recorded_total (Application.nickname a) st with
            | Some t => Z.max t (Application.totalWin a)
            | None => Application.totalWin a
            end) /\
    (forall n, n <> Application.nickname a ->
       recorded_total n st' = recorded_total n st).
Proof.
  intros F Hn.
  rewrite (patch_applications_id_found env id "approved" st i a eq_refl F).
  cbv zeta. change ("approved" =? "approved") with true. cbv iota.
  set (a' := Application.set_status "approved" a).
  set (st1 := write_status i a "approved" st).
  assert (Hfp : find_player_named (Application.nickname a') st1
                = find_player_named (Application.nickname a) st) by reflexivity.
  unfold recorded_total.
  destruct (find_player_named (Application.nickname a) st) as [[j p]|] eqn:Fp.
  - rewrite (merge_player_found env a' st1 j p Hfp).
    change (Application.totalWin a') with (Application.totalWin a).
    pose proof Fp as Fp'. apply list_find_Some in Fp' as (Hj & Hname & _).
    destruct (Z.gtb_spec (Application.totalWin a) (Player.totalWin p)).
    + eexists. split; [reflexivity|]. split; [reflexivity|]. split.
      * erewrite find_player_named_insert; [| exact Fp | reflexivity].
        cbn. f_equal. lia.
      * intros n Hne. unfold find_player_named. cbn [players set_players st1 write_status set_applications].
        rewrite list_find_insert_irrelevant; [reflexivity| |cbn; congruence].
        intros y Hy. rewrite Hj in Hy. injection Hy as <-. congruence.
    + eexists. split; [reflexivity|]. split; [reflexivity|]. split.
      * change (find_player_named (Application.nickname a) st1)
          with (find_player_named (Application.nickname a) st).
        rewrite Fp. cbn. f_equal. lia.
      * intros n _. reflexivity.
  - rewrite (merge_player_new env a' st1 Hfp Hn).
    eexists. split; [reflexivity|]. split; [reflexivity|]. split.
    + match goal with |- context [find_player_named _ ?s1] =>
        rewrite (find_player_named_snoc _ st
                   (new_player env st (Application.nickname a) (Application.totalWin a))
                   s1 Fp eq_refl eq_refl)
      end. reflexivity.
    + intros n Hne. unfold find_player_named. cbn [players].
      change (players st1) with (players st).
      rewrite list_find_snoc_irrelevant; [reflexivity | cbn; congruence].
Qed.

Lemma approve_two env st id1 id2 i1 i2 a1 a2 :
  id1 <> id2 ->
  find_application id1 st = Some (i1, a1) ->
  find_application id2 st = Some (i2, a2) ->
  Application.nickname a2 = Application.nickname a1 ->
  Application.nickname a1 <> "" ->
  exists r1 st1 r2 st2,
    patch_applications_id env id1 (Some "approved") st = Ok r1 st1 /\
    patch_applications_id env id2 (Some "approved") st1 = Ok r2 st2 /\
    recorded_total (Application.nickname a1) st2 =
      Some (merged_total (recorded_total (Application.nickname a1) st)
              (Application.totalWin a1) (Application.totalWin a2)) /\
    (forall n, n <> Application.nickname a1 ->
       recorded_total n st2 = recorded_total n st).
Proof.
  intros Hne F1 F2 HN Hn.
  destruct (approve_recorded_total env id1 st i1 a1 F1 Hn)
    as (st1 & H1 & Ha1 & Hr1 & Ho1).
  assert (F2' : find_application id2 st1 = Some (i2, a2)).
  { unfold find_application in *. rewrite Ha1.
    rewrite list_find_insert_irrelevant; [exact F2 | | ].
    - apply list_find_Some in F1 as (Hi1 & Hid1 & _).
      intros y Hy. rewrite Hi1 in Hy. injection Hy as <-. congruence.
    - apply list_find_Some in F1 as (_ & Hid1 & _). cbn. congruence. }
  assert (Hn2 : Application.nickname a2 <> "") by congruence.
  destruct (approve_recorded_total env id2 st1 i2 a2 F2' Hn2)
    as (st2 & H2 & Ha2 & Hr2 & Ho2).
  eexists _, st1, _, st2. split; [exact H1|]. split; [exact H2|]. split.
  - rewrite HN in Hr2. rewrite Hr2, Hr1. unfold merged_total.
    destruct (recorded_total (Application.nickname a1) st); f_equal; lia.
  - intros n Hnn. rewrite Ho2 by congruence. now apply Ho1.
Qed.

(** X11. Two claims under one nickname converge on one total, in whichever
    order they are approved: afterwards the total recorded for the nickname
    is the greatest of the two claimed amounts and of the total recorded
    before, if there was one, and the totals recorded for the other names
    are as before. *)
Theorem approvals_commute env h u st id1 id2 i1 i2 a1 a2 :
  authenticated env h = Some u ->
  id1 <> id2 ->
  find_application id1 st = Some (i1, a1) ->
  find_application id2 st = Some (i2, a2) ->
  Application.nickname a2 = Application.nickname a1 ->
  Application.nickname a1 <> "" ->
  let approve id := mkRequest h (PATCH_applications_id id (Some "approved")) in
  let N := Application.nickname a1 in
  let total :=
    merged_total (recorded_total N st)
      (Application.totalWin a1) (Application.totalWin a2) in
  exists r1 st1 r12 st12 r2 st2 r21 st21,
    handle env (approve id1) st = Ok r1 st1 /\
    handle env (approve id2) st1 = Ok r12 st12 /\
    handle env (approve id2) st = Ok r2 st2 /\
    handle env (approve id1) st2 = Ok r21 st21 /\
    recorded_total N st12 = Some total /\
    recorded_total N st21 = Some total /\
    (forall n, n <> N ->
       recorded_total n st12 = recorded_total n st /\
       recorded_total n st21 = recorded_total n st).
Proof.
  intros A Hne F1 F2 HN Hn approve N total. unfold approve.
  rewrite !(handle_authenticated _ _ _ _ _ A).
  destruct (approve_two env st id1 id2 i1 i2 a1 a2 Hne F1 F2 HN Hn)
    as (r1 & st1 & r12 & st12 & H1 & H12 & Ht12 & Ho12).
  assert (Hn2 : Application.nickname a2 <> "") by congruence.
  destruct (approve_two env st id2 id1 i2 i1 a2 a1 (not_eq_sym Hne) F2 F1
              (eq_sym HN) Hn2)
    as (r2 & st2 & r21 & st21 & H2 & H21 & Ht21 & Ho21).
  exists r1, st1, r12, st12, r2, st2, r21, st21.
  setoid_rewrite (handle_authenticated _ _ _ _ _ A).
  split; [exact H1|]. split; [exact H12|]. split; [exact H2|]. split; [exact H21|].
  split; [exact Ht12|]. split.
  - rewrite HN in Ht21. fold N in Ht21. rewrite Ht21. unfold total, merged_total.
    destruct (recorded_total N st); f_equal; lia.
  - intros n Hnn. unfold N in Hnn. split; [now apply Ho12|].
    apply Ho21. congruence.
Qed.

Lemma approvals_commute_witness :
  exists r1 st1 r12 st12 r2 st2 r21 st21,
    handle env0 (mkRequest admin (PATCH_applications_id 0 (Some "approved")))
      st_two_claims = Ok r1 st1 /\
    handle env0 (mkRequest admin (PATCH_applications_id 1 (Some "approved")))
      st1 = Ok r12 st12 /\
    handle env0 (mkRequest admin (PATCH_applications_id 1 (Some "approved")))
      st_two_claims = Ok r2 st2 /\
    handle env0 (mkRequest admin (PATCH_applications_id 0 (Some "approved")))
      st2 = Ok r21 st21 /\
    recorded_total "AceA" st12 = Some 1000000%Z /\
    recorded_total "AceA" st21 = Some 1000000%Z.
Proof.
  destruct (approvals_commute env0 admin "admin" st_two_claims 0 1 0 1
              alice_pending
              (Application.mk 1 "Alice" "a@x.com" "555" "AceA" "acc1" 500000 ""
                 "pending" 1000))
    as (r1 & st1 & r12 & st12 & r2 & st2 & r21 & st21 & H);
    [reflexivity | lia | reflexivity | reflexivity | reflexivity | discriminate |].
  exists r1, st1, r12, st12, r2, st2, r21, st21.
  destruct H as (H1 & H2 & H3 & H4 & H5 & H6 & _).
  split; [exact H1|]. split; [exact H2|]. split; [exact H3|]. split; [exact H4|].
  split; [exact H5 | exact H6].
Defined.

(** ** From submission to the board *)






(** * Signing in, and the client *)

(** ** Credentials *)

Lemma strict_equal_true x y : strict_equal x y = true <-> x = y.
Proof. unfold strict_equal. apply bool_decide_eq_true. Qed.

(** X14. Signing in: a token is issued exactly when the submitted username
    and password are identical to the configured ones, and the answer is 401
    otherwise.  Identical includes absent: on a server where neither
    variable is set, a body with neither field is given a token. *)
Theorem login_checks_credentials lenv body :
  (post_auth_login lenv body = LoginToken (jwt_sign lenv (username body)) <->
     username body = ADMIN_USERNAME lenv /\ password body = ADMIN_PASSWORD lenv) /\
  (post_auth_login lenv body = LoginRefused 401 "Invalid credentials" <->
     ~ (username body = ADMIN_USERNAME lenv /\ password body = ADMIN_PASSWORD lenv)) /\
  (ADMIN_USERNAME lenv = None -> ADMIN_PASSWORD lenv = None ->
     post_auth_login lenv (mkCredentials None None) = LoginToken (jwt_sign lenv None)).
Proof.
  assert (Hiff : strict_equal (username body) (ADMIN_USERNAME lenv)
                 && strict_equal (password body) (ADMIN_PASSWORD lenv) = true
                 <-> username body = ADMIN_USERNAME lenv /\
                     password body = ADMIN_PASSWORD lenv).
  { rewrite andb_true_iff, !strict_equal_true. tauto. }
  split; [|split].
  - unfold post_auth_login. rewrite <- Hiff.
    destruct (_ && _); split; try reflexivity; discriminate.
  - unfold post_auth_login. rewrite <- Hiff.
    destruct (_ && _); split; try reflexivity; try discriminate; congruence.
  - intros HU HP. unfold post_auth_login. cbn [username password].
    rewrite (proj2 (strict_equal_true None (ADMIN_USERNAME lenv))) by congruence.
    rewrite (proj2 (strict_equal_true None (ADMIN_PASSWORD lenv))) by congruence.
    reflexivity.
Qed.

Lemma login_checks_credentials_witness :
  post_auth_login (mkLoginEnv None None (fun _ => "admin-token"))
    (mkCredentials None None) = LoginToken "admin-token" /\
  post_auth_login (mkLoginEnv (Some "root") (Some "s3cret") (fun _ => "admin-token"))
    (mkCredentials (Some "root") None) = LoginRefused 401 "Invalid credentials".
Proof.
  split.
  - apply (login_checks_credentials (mkLoginEnv None None (fun _ => "admin-token"))
             (mkCredentials None None)); reflexivity.
  - apply (login_checks_credentials
             (mkLoginEnv (Some "root") (Some "s3cret") (fun _ => "admin-token"))
             (mkCredentials (Some "root") None)).
    intros [_ H]. discriminate H.
Defined.

(** ** The token between client and gate *)

Lemma truthy_string_default token :
  truthy_string token = true -> token = Some (default "" token) /\ default "" token <> "".
Proof.
  intros H. apply truthy_string_Some in H as (t & -> & Ht). split; [reflexivity | exact Ht].
Qed.

(** X15. What the client's request interceptor adds is what the server's
    middleware takes off again: the gate's verdict on a call of the client
    is the verifier's verdict on the token in local storage, whatever
    characters the token has, and no token or an empty one gives no
    principal. *)
Theorem gate_reads_the_stored_token env token :
  bearer_token (request_interceptor token)
    = (if truthy_string token then token else None) /\
  authenticated env (request_interceptor token)
    = (if truthy_string token then token ≫= jwt_verify env else None).
Proof.
  unfold request_interceptor, authenticated.
  destruct (truthy_string token) eqn:T; [|split; reflexivity].
  apply truthy_string_default in T as [E Hne].
  unfold bearer_token. cbn [fmap option_fmap option_map].
  rewrite remove_first_prefix. rewrite <- E.
  split; [reflexivity|].
  rewrite E at 1. cbn [truthy_string].
  destruct (String.eqb_spec (default "" token) ""); [contradiction | reflexivity].
Qed.




Lemma prefix_In p s c :
  String.prefix p s = true ->
  In c (list_ascii_of_string p) -> In c (list_ascii_of_string s).
Proof.
  revert s. induction p as [|x p IH]; intros s; [intros _ []|].
  destruct s as [|y s]; cbn; [discriminate|].
  destruct (ascii_dec x y) as [->|]; [|discriminate].
  intros Hp [->|Hc]; [now left | right; now apply IH].
Qed.

Lemma remove_first_absent pat s c :
  In c (list_ascii_of_string pat) -> ~ In c (list_ascii_of_string s) ->
  remove_first pat s = s.
Proof.
  intros Hc. induction s as [|y s IH]; intros Hs; rewrite remove_first_unfold.
  - destruct (String.prefix pat "") eqn:P; [|reflexivity].
    exfalso. apply Hs. eapply prefix_In; eassumption.
  - destruct (String.prefix pat (String y s)) eqn:P.
    + exfalso. apply Hs. eapply prefix_In; eassumption.
    + f_equal. apply IH. intros H. apply Hs. now right.
Qed.

(** X17. The gate does not insist on the [Bearer] scheme: a header that is
    a bare token (no space in it, as in a JWT) is verified as it stands,
    and passes exactly when the token does. *)
Theorem bare_token_is_accepted env t :
  t <> "" ->
  ~ In " "%char (list_ascii_of_string t) ->
  bearer_token (Some t) = Some t /\
  authenticated env (Some t) = jwt_verify env t.
Proof.
  intros Ht Hsp.
  assert (E : remove_first "Bearer " t = t).
  { apply (remove_first_absent _ _ " "%char); [|exact Hsp].
    cbn. tauto. }
  unfold authenticated, bearer_token. cbn [fmap option_fmap option_map].
  rewrite E. split; [reflexivity|]. cbn.
  destruct (String.eqb_spec t ""); [contradiction | reflexivity].
Qed.

Lemma bare_token_is_accepted_witness :
  bearer_token (Some "admin-token") = Some "admin-token" /\
  authenticated env0 (Some "admin-token") = jwt_verify env0 "admin-token".
Proof.
  apply (bare_token_is_accepted env0 "admin-token"); [discriminate|].
  cbn. intros H. repeat (destruct H as [H|H]; [discriminate H|]). exact H.
Defined.

(** ** The review buttons *)



(** ** The older application form *)

(** X19. The form of [ApplicationPage] has no nickname and no account-name
    field, so whatever is typed into it and whatever the amount parses to,
    the server refuses its submission with 400 and stores nothing. *)
Theorem application_page_is_refused env h f amount st :
  handle env (mkRequest h (POST_applications (ApplicationPage_body f amount))) st
  = Ok (mkResponse 400 (JMessage "Required fields are missing")) st.
Proof.
  unfold handle. cbn [route]. apply post_applications_missing.
  unfold required_fields_present, ApplicationPage_body. cbn.
  now rewrite !andb_false_r.
Qed.

(** ** Pages of ten *)

Lemma totalPages_bounds {A} (l : list A) :
  (length l <= totalPages l * 10 /\ totalPages l * 10 < length l + 10)%nat.
Proof.
  unfold totalPages, ITEMS_PER_PAGE. change (10 - 1)%nat with 9%nat.
  pose proof (Nat.div_mod_eq (length l + 9) 10) as E.
  pose proof (Nat.mod_upper_bound (length l + 9) 10 ltac:(lia)) as B.
  lia.
Qed.

Lemma pages_up_to {A} (l : list A) n :
  concat (map (paginatedPlayers l) (seq 1 n)) = take (n * 10) l.
Proof.
  induction n as [|n IH]; [reflexivity|].
  rewrite seq_S, map_app, concat_app, IH. cbn [map concat].
  rewrite app_nil_r. unfold paginatedPlayers, slice, ITEMS_PER_PAGE.
  replace (1 + n - 1)%nat with n by lia.
  replace (take (n * 10) l) with (take (n * 10) (take ((1 + n) * 10) l)).
  - apply take_drop.
  - rewrite take_take. f_equal. lia.
Qed.

(** X20. Paging loses and repeats nothing: the pages 1 to [totalPages], one
    after the other, are the list itself. *)
Theorem pages_cover_the_list {A} (l : list A) :
  concat (map (paginatedPlayers l) (seq 1 (totalPages l))) = l.
Proof.
  rewrite pages_up_to. apply take_ge. apply totalPages_bounds.
Qed.

(** X21. What a page shows.  Entry [index] of page [currentPage] is the
    entry of the list at [globalIndex], the rank displayed with it; a page
    holds at most ten entries; it is empty exactly when [currentPage] is
    beyond [totalPages], also when the list itself is not; and the
    previous and next buttons never leave the range of the pages. *)
Theorem page_contents {A} (l : list A) currentPage :
  (1 <= currentPage)%nat ->
  (forall index, (index < ITEMS_PER_PAGE)%nat ->
     paginatedPlayers l currentPage !! index = l !! globalIndex currentPage index) /\
  (length (paginatedPlayers l currentPage) <= ITEMS_PER_PAGE)%nat /\
  (paginatedPlayers l currentPage = [] <-> (totalPages l < currentPage)%nat) /\
  ((currentPage <= totalPages l)%nat ->
     (1 <= previousPage currentPage <= totalPages l)%nat /\
     (1 <= nextPage (totalPages l) currentPage <= totalPages l)%nat).
Proof.
  intros Hp. unfold paginatedPlayers, slice, globalIndex, ITEMS_PER_PAGE.
  pose proof (totalPages_bounds l) as [B1 B2].
  assert (Hlen : length (drop ((currentPage - 1) * 10) (take (currentPage * 10) l))
                 = (Nat.min (currentPage * 10) (length l) - (currentPage - 1) * 10)%nat).
  { now rewrite length_drop, length_take. }
  split; [|split; [|split]].
  - intros index Hi. rewrite lookup_drop. apply lookup_take_lt. lia.
  - rewrite Hlen. lia.
  - split.
    + intros E. rewrite E in Hlen. cbn in Hlen. lia.
    + intros Hlt. apply nil_length_inv. rewrite Hlen. lia.
  - intros Hle. unfold previousPage, nextPage. lia.
Qed.

Lemma page_contents_witness :
  paginatedPlayers [1; 2; 3; 4; 5; 6; 7; 8; 9; 10; 11; 12]%nat 2 !! 1%nat
    = [1; 2; 3; 4; 5; 6; 7; 8; 9; 10; 11; 12]%nat !! globalIndex 2 1.
Proof.
  apply (page_contents [1; 2; 3; 4; 5; 6; 7; 8; 9; 10; 11; 12]%nat 2);
    unfold ITEMS_PER_PAGE; lia.
Defined.

(** ** Filter and sort on the page *)

Lemma js_insert_perm {A} (compare : A -> A -> Z) x l :
  js_insert compare x l ≡ₚ x :: l.
Proof.
  induction l as [|y l IH]; cbn; [reflexivity|].
  destruct (compare x y <=? 0)%Z; [reflexivity|].
  rewrite IH. apply Permutation_swap.
Qed.

Lemma js_sort_perm {A} (compare : A -> A -> Z) l : js_sort compare l ≡ₚ l.
Proof.
  induction l as [|x l IH]; cbn; [reflexivity|].
  now rewrite js_insert_perm, IH.
Qed.

Section SortedByComparator.
Context {A : Type} (compare : A -> A -> Z) (R : relation A).
Hypothesis compare_le : forall a b, (compare a b <= 0)%Z <-> R a b.
Hypothesis R_total : forall a b, R a b \/ R b a.
Hypothesis R_trans : forall a b c, R a b -> R b c -> R a c.

Lemma js_insert_sorted x l :
  StronglySorted R l -> StronglySorted R (js_insert compare x l).
Proof.
  induction 1 as [|y l Hs IH Hy]; cbn; [repeat constructor|].
  destruct (Z.leb_spec (compare x y) 0) as [Hle|Hgt].
  - apply compare_le in Hle. constructor; [now constructor|].
    constructor; [exact Hle|]. eapply Forall_impl; [exact Hy|].
    cbn. intros z Hz. eapply R_trans; eassumption.
  - constructor; [exact IH|].
    rewrite (js_insert_perm compare x l). constructor; [|exact Hy].
    destruct (R_total x y) as [H|H]; [|exact H].
    apply compare_le in H. lia.
Qed.

Lemma js_sort_sorted l : StronglySorted R (js_sort compare l).
Proof.
  induction l as [|x l IH]; cbn; [constructor | now apply js_insert_sorted].
Qed.

Lemma js_sort_of_sorted l : StronglySorted R l -> js_sort compare l = l.
Proof.
  unfold js_sort.
  induction 1 as [|x l Hs IH Hx]; cbn [foldr]; [reflexivity|].
  rewrite IH. destruct l as [|y l]; [reflexivity|]. cbn [js_insert].
  apply Forall_cons in Hx as [Hxy _]. apply compare_le in Hxy.
  destruct (Z.leb_spec (compare x y) 0); [reflexivity | lia].
Qed.

End SortedByComparator.

Lemma compare_players_le localeCompare sortOrder a b :
  (compare_players localeCompare ByTotalWin sortOrder a b <= 0)%Z
  <-> by_totalWin sortOrder a b.
Proof. unfold compare_players, by_totalWin. destruct sortOrder; lia. Qed.

Lemma by_totalWin_total sortOrder a b :
  by_totalWin sortOrder a b \/ by_totalWin sortOrder b a.
Proof. unfold by_totalWin. destruct sortOrder; lia. Qed.

Lemma by_totalWin_trans sortOrder a b c :
  by_totalWin sortOrder a b -> by_totalWin sortOrder b c -> by_totalWin sortOrder a c.
Proof. unfold by_totalWin. destruct sortOrder; lia. Qed.

(** X22. Sorting the page by total: the list shown holds exactly the
    players that pass the search box (all of them when it is empty), each
    once, in ascending or descending order of total as chosen. *)
Theorem page_sorted_by_total localeCompare players search sortOrder :
  let shown := filteredAndSortedPlayers localeCompare players search ByTotalWin sortOrder in
  shown ≡ₚ (if search =? ""
            then players
            else List.filter (fun p => name_includes search (Player.name p)) players) /\
  StronglySorted (by_totalWin sortOrder) shown /\
  (forall p, p ∈ shown <->
     p ∈ players /\ (search = "" \/ name_includes search (Player.name p) = true)).
Proof.
  cbv zeta. unfold filteredAndSortedPlayers.
  split; [|split].
  - rewrite js_sort_perm. destruct (search =? ""); reflexivity.
  - apply (js_sort_sorted _ _ (compare_players_le localeCompare sortOrder)
             (by_totalWin_total sortOrder) (by_totalWin_trans sortOrder)).
  - intros p. rewrite js_sort_perm.
    destruct (String.eqb_spec search "") as [->|Hne]; cbn [negb].
    + tauto.
    + rewrite list_elem_of_In, filter_In, <- list_elem_of_In. tauto.
Qed.

(** X23. With the search box empty and the sort as the page starts, by
    total and descending, the page shows the answer of [GET /players] in
    the order the server gave it: rank [n] on the page is rank [n] on the
    server. *)
Theorem page_keeps_server_ranking env h st localeCompare :
  exists ps,
    handle env (mkRequest h GET_players) st
      = Ok (mkResponse 200 (JPlayers ps)) st /\
    filteredAndSortedPlayers localeCompare ps "" ByTotalWin Desc = ps.
Proof.
  unfold handle. cbn [route]. rewrite get_players_spec, filter_true.
  eexists. split; [reflexivity|].
  unfold filteredAndSortedPlayers. cbn [String.eqb negb].
  apply (js_sort_of_sorted _ _ (compare_players_le localeCompare Desc)).
  apply sort_totalWin_desc_strongly.
Qed.

(** ** The application form *)





